(** * translate.py: chunking, translation with one retry, and batch driver

    A shallow embedding of [src/translate.py].  Python [str] values are
    sequences of Unicode code points; [len] counts code points.  The pure
    helpers ([_chunk_text], the response clean-up, the output naming) are
    plain functions; the parts that touch the file system, the clock, the
    console and the remote completion service run in a small state-and-error
    monad over an explicit world.  The remote service is a parameter, and so
    is what the operating system decides when a file is written ([OS]).
    [pathlib] is the pure POSIX flavour of CPython 3.11. *)

From Stdlib Require Import String Ascii.
From Stdlib Require Import List ZArith NArith Bool Lia QArith.
Import ListNotations.

Local Open Scope Z_scope.

(** ** Python strings *)

Module PyStr.

(** A character is a code point, a string is the list of its code points. *)
Definition char := N.
Definition str := list char.

(** ASCII literals of the source, written as Rocq strings. *)
Fixpoint lit (s : string) : str :=
  match s with
  | EmptyString => []
  | String a s' => N_of_ascii a :: lit s'
  end.

(** [len(s)] *)
Definition len (s : str) : Z := Z.of_nat (length s).

Definition char_eqb (a b : char) : bool := N.eqb a b.

Fixpoint str_eqb (a b : str) : bool :=
  match a, b with
  | [], [] => true
  | x :: a', y :: b' => char_eqb x y && str_eqb a' b'
  | _, _ => false
  end.

(** Truthiness of a string: [if s:] holds for the non-empty ones. *)
Definition truthy (s : str) : bool :=
  match s with
  | [] => false
  | _ :: _ => true
  end.

(** The code points at which [str.splitlines] ends a line:
    LF, VT, FF, CR, FS, GS, RS, NEL, LS, PS. *)
Definition is_linebreak (c : char) : bool :=
  match c with
  | 10 | 11 | 12 | 13 | 28 | 29 | 30 | 133 | 8232 | 8233 => true
  | _ => false
  end%N.

Definition CR : char := 13%N.
Definition LF : char := 10%N.

(** [str.splitlines(keepends=True)].  [cur] is the line read so far.  A line
    ends after a line break, CR LF counting as one; the text after the last
    break is a line of its own when it is not empty. *)
Fixpoint splitlines_from (cur : str) (s : str) : list str :=
  match s with
  | [] => if truthy cur then [cur] else []
  | c :: rest =>
      if is_linebreak c then
        if char_eqb c CR then
          match rest with
          | d :: rest' =>
              if char_eqb d LF
              then (cur ++ [c; d]) :: splitlines_from [] rest'
              else (cur ++ [c]) :: splitlines_from [] rest
          | [] => (cur ++ [c]) :: splitlines_from [] rest
          end
        else (cur ++ [c]) :: splitlines_from [] rest
      else splitlines_from (cur ++ [c]) rest
  end.

Definition splitlines (s : str) : list str := splitlines_from [] s.

(** [sep.join(xs)] *)
Fixpoint join (sep : str) (xs : list str) : str :=
  match xs with
  | [] => []
  | [x] => x
  | x :: rest => x ++ sep ++ join sep rest
  end.

(** The code points for which [str.isspace] holds; [str.strip()] removes
    them from both ends. *)
Definition is_space (c : char) : bool :=
  match c with
  | 9 | 10 | 11 | 12 | 13 | 28 | 29 | 30 | 31 | 32 | 133 | 160
  | 5760
  | 8192 | 8193 | 8194 | 8195 | 8196 | 8197 | 8198 | 8199 | 8200 | 8201 | 8202
  | 8232 | 8233 | 8239 | 8287 | 12288 => true
  | _ => false
  end%N.

Fixpoint lstrip (s : str) : str :=
  match s with
  | [] => []
  | c :: s' => if is_space c then lstrip s' else s
  end.

Definition rstrip (s : str) : str := rev (lstrip (rev s)).

(** [s.strip()] *)
Definition strip (s : str) : str := rstrip (lstrip s).

(** [s.startswith(p)] *)
Fixpoint startswith (p s : str) : bool :=
  match p, s with
  | [], _ => true
  | a :: p', b :: s' => char_eqb a b && startswith p' s'
  | _ :: _, [] => false
  end.

(** [s.replace(old, new)] for a non-empty [old]: the occurrences of [old]
    are found from the left and do not overlap.  [skip] counts the code
    points of a matched occurrence still to be passed over. *)
Fixpoint replace_from (old new : str) (skip : nat) (s : str) : str :=
  match s with
  | [] => []
  | c :: s' =>
      match skip with
      | S k => replace_from old new k s'
      | O =>
          if startswith old s
          then new ++ replace_from old new (length old - 1) s'
          else c :: replace_from old new 0 s'
      end
  end.

(** With an empty [old], Python puts [new] before every code point and at
    the end. *)
Definition replace (old new : str) (s : str) : str :=
  match old with
  | [] => new ++ flat_map (fun c => c :: new) s
  | _ :: _ => replace_from old new 0 s
  end.

End PyStr.

Import PyStr.

(** ** Exceptions and results *)

(** The [ValueError]s of the program and of [pathlib], by what they say. *)
Inductive value_error :=
| TargetLangRequired            (* "target_lang is required" *)
| NoResponseFromOpenAI          (* "No response from OpenAI" *)
| InvalidName (name : str)      (* pathlib: "Invalid name ..." *)
| EmptyName (path : str)        (* pathlib: "... has an empty name" *)
| EmbeddedNullByte.             (* open: "embedded null byte" *)

(** The exceptions (all subclasses of [Exception]) that can reach the
    program.  [RemoteCallError] stands for whatever the client library raises
    from [client.chat.completions.create]; [UnicodeEncodeError] is raised when
    a text that cannot be encoded as UTF-8 is written; [OSError] stands for
    what the operating system refuses, by its error number. *)
Inductive exn :=
| FileNotFoundError (path : str)
| ValueError (v : value_error)
| RemoteCallError (detail : str)
| UnicodeEncodeError
| OSError (errno : Z).

Inductive result (A : Type) :=
| Ok (a : A)
| Err (e : exn).
Arguments Ok {A} a.
Arguments Err {A} e.

(** ** pathlib on POSIX *)

Module PurePath.

Definition SEP : char := 47%N.
Definition DOT : char := 46%N.

(** A parsed path: its root ([""], ["/"] or ["//"]) and its components. *)
Record t := mk { root : str; tail : list str }.

(** [s.split(sep)] for a one-character separator. *)
Fixpoint split_from (sep : char) (cur : str) (s : str) : list str :=
  match s with
  | [] => [cur]
  | c :: rest =>
      if char_eqb c sep
      then cur :: split_from sep [] rest
      else split_from sep (cur ++ [c]) rest
  end.

Definition split (sep : char) (s : str) : list str := split_from sep [] s.

(** [posixpath.splitroot], without the drive, which is always empty: one
    leading slash is the root, exactly two are kept, three or more collapse
    to one. *)
Definition splitroot (p : str) : str * str :=
  match p with
  | c1 :: p1 =>
      if char_eqb c1 SEP then
        match p1 with
        | c2 :: p2 =>
            if char_eqb c2 SEP then
              match p2 with
              | c3 :: _ => if char_eqb c3 SEP then ([SEP], p1) else ([SEP; SEP], p2)
              | [] => ([SEP; SEP], p2)
              end
            else ([SEP], p1)
        | [] => ([SEP], p1)
        end
      else ([], p)
  | [] => ([], p)
  end.

(** [Path(s)]: empty components and ["."] components are dropped. *)
Definition Path (s : str) : t :=
  let '(r, rel) := splitroot s in
  mk r (filter (fun x => truthy x && negb (str_eqb x [DOT])) (split SEP rel)).

(** [p.name]: the last component, or [""] when there is none. *)
Definition name (p : t) : str := last (tail p) [].

(** [s.rfind(c)]: the index of the last [c] in [s], or [-1]. *)
Fixpoint rfind_from (c : char) (i : Z) (found : Z) (s : str) : Z :=
  match s with
  | [] => found
  | d :: s' => rfind_from c (i + 1) (if char_eqb d c then i else found) s'
  end.

Definition rfind (c : char) (s : str) : Z := rfind_from c 0 (-1) s.

(** [p.stem]: the name without its last suffix; a leading or a trailing dot
    does not start a suffix. *)
Definition stem (p : t) : str :=
  let i := rfind DOT (name p) in
  if (0 <? i) && (i <? len (name p) - 1)
  then firstn (Z.to_nat i) (name p)
  else name p.

(** [str(p)] *)
Definition to_str (p : t) : str :=
  let s := root p ++ join [SEP] (tail p) in
  if truthy s then s else [DOT].

(** [p.parent], as the root and the components before the last. *)
Definition parent (p : t) : t := mk (root p) (removelast (tail p)).

(** [p.with_name(new_name)], as in CPython 3.11: the path must have a name;
    the new name is parsed as a path of its own and must be non-empty, must
    not end with a separator, must have no root and exactly one component.
    A name such as ["./x"] passes and is put in as it is.  (From CPython 3.12
    on every name with a separator in it is refused.) *)
Definition with_name (p : t) (new_name : str) : result t :=
  if negb (truthy (name p)) then Err (ValueError (EmptyName (to_str p)))
  else if negb (truthy new_name)
          || char_eqb (last new_name DOT) SEP
          || truthy (root (Path new_name))
          || negb (Nat.eqb (length (tail (Path new_name))) 1)
  then Err (ValueError (InvalidName new_name))
  else Ok (mk (root p) (removelast (tail p) ++ [new_name])).

(** The paths [Path] builds: one of the three roots, and components that
    are non-empty, free of separators and different from ["."]. *)
Definition component (x : str) : Prop :=
  x <> [] /\ ~ In SEP x /\ x <> [DOT].

Definition well_formed (p : t) : Prop :=
  (root p = [] \/ root p = [SEP] \/ root p = [SEP; SEP])
  /\ Forall component (tail p).

End PurePath.

(** ** Configuration *)

Definition MODEL : str := lit "gpt-4o".
Definition MAX_CHARS_PER_CHUNK : Z := 4500.
Definition SLEEP_BETWEEN_CALLS : Q := 1 # 2.

(** ** The chunker *)

(** The body of the [for line in lines] loop of [_chunk_text], on the pair
    of the two local variables [chunks] and [current]. *)
Definition chunk_step (max_chars : Z) (st : list str * str) (line : str)
  : list str * str :=
  let '(chunks, current) := st in
  let '(chunks, current) :=
    if len current + len line >? max_chars
    then (chunks ++ [current], [])
    else (chunks, current) in
  (chunks, current ++ line).

Definition chunk_loop (max_chars : Z) (lines : list str) (st : list str * str)
  : list str * str :=
  fold_left (chunk_step max_chars) lines st.

Definition _chunk_text (text : str) (max_chars : Z) : list str :=
  let lines := splitlines text in
  let '(chunks, current) := chunk_loop max_chars lines ([], []) in
  if truthy current then chunks ++ [current] else chunks.


(** A group of consecutive lines fits a budget when its text is within it or
    the group is one line that alone exceeds it. *)
Definition fits (max_chars : Z) (g : list str) : Prop :=
  len (concat g) <= max_chars \/ exists line, g = [line] /\ max_chars < len line.

(** ** The remote completion service *)

(** What [client.chat.completions.create] is called with. *)
Record request := mk_request {
  req_model : str;
  req_temperature : Q;
  req_system : str;
  req_user : str
}.

(** What it returns: an object with a list of choices, each with an optional
    message, each with an optional text. *)
Record chat_message := mk_message { content : option str }.
Record choice := mk_choice { message : option chat_message }.
Record completion := mk_completion { choices : list choice }.

Inductive outcome :=
| Raises (e : exn)
| Returns (response : option completion).

(** The system prompt of [_translate_chunk], an f-string with two holes for
    the language code. *)
Definition system_prompt (target_lang : str) : str :=
  lit "Translate the following SRT subtitles into the language corresponding to the international language code: '"
  ++ target_lang ++ lit "'.

IMPORTANT RULES:
- Translate this SRT into natural, neutral, professional '"
  ++ target_lang ++ lit "'
- Keep SRT format EXACTLY
- Do NOT change timestamps
- Do NOT merge or split subtitle numbers
- Do NOT translate Linux system commands, file paths, file names, nor code snippets. Example: this/is/a/path.
- do NOT translate code terms, product names, commands, or file names. Examples: Keep: 'pip install django', Keep: 'python manage.py runserver', Only translate the explanation around these.
- Only translate spoken text
- Keep line breaks

Return ONLY the translated SRT.
".

Definition chunk_request (chunk target_lang : str) : request :=
  mk_request MODEL (1 # 5) (system_prompt target_lang) chunk.

(** The guard of [_translate_chunk]: the text of the first choice, when the
    response, its choices, the first message and its text are all truthy. *)
Definition usable_content (response : option completion) : option str :=
  match response with
  | Some r =>
      match choices r with
      | c :: _ =>
          match message c with
          | Some m =>
              match content m with
              | Some text => if truthy text then Some text else None
              | None => None
              end
          | None => None
          end
      | [] => None
      end
  | None => None
  end.

Definition BACKTICK : char := 96%N.
Definition FENCE_SRT : str := lit "```srt".
Definition FENCE : str := lit "```".

(** Whitespace only. *)
Definition spaces (ws : str) : Prop := Forall (fun c => is_space c = true) ws.

(** [content.strip().replace("```srt", "").replace("```", "").strip()] *)
Definition clean_content (text : str) : str :=
  strip (replace FENCE [] (replace FENCE_SRT [] (strip text))).

(** The part of [_translate_chunk] after the call. *)
Definition interpret_response (response : option completion) : result str :=
  match usable_content response with
  | Some text => Ok (clean_content text)
  | None => Err (ValueError NoResponseFromOpenAI)
  end.

(** ** The world: files, console, clock, remote service *)

(** What is printed, by the format string that prints it. *)
Inductive console_message :=
| MsgReadingFile
| MsgChunking
| MsgTotalChunks (n : nat)
| MsgTranslatingChunk (i n : nat) (target_lang : str)
| MsgErrorOnChunk (i : nat) (e : exn)
| MsgRetrying
| MsgRebuilding
| MsgDone (output_path : str)
| MsgTranslatingTo (lang : str).

Inductive event :=
| EPrint (m : console_message)
| ERead (path : str)
| EOpen (path : str)
| EWrite (path : str) (text : str)
| ECall (req : request)
| ESleep (seconds : Q).

(** Universal newlines, as a file opened in text mode is read: CR LF and a
    lone CR both arrive as LF. *)
Fixpoint universal_newlines (s : str) : str :=
  match s with
  | [] => []
  | c :: rest =>
      if char_eqb c CR then
        LF :: match rest with
              | d :: rest' =>
                  if char_eqb d LF
                  then universal_newlines rest'
                  else universal_newlines rest
              | [] => universal_newlines rest
              end
      else c :: universal_newlines rest
  end.

(** What a run called, wrote, opened for writing and announced, read off
    its trace.  [EOpen] marks a file created or emptied by [open(path, "w")],
    [EWrite] a text written to it in full. *)
Definition calls (evs : list event) : list request :=
  flat_map (fun e => match e with ECall req => [req] | _ => [] end) evs.

Definition writes (evs : list event) : list (str * str) :=
  flat_map (fun e => match e with EWrite p text => [(p, text)] | _ => [] end) evs.

Definition opened (evs : list event) : list str :=
  flat_map (fun e => match e with EOpen p => [p] | _ => [] end) evs.

Definition announced (evs : list event) : list str :=
  flat_map (fun e => match e with EPrint (MsgTranslatingTo l) => [l] | _ => [] end) evs.

(** What [_translate_chunk] makes of one outcome of the call: it passes on
    what the call raises and interprets what it returns. *)
Definition driver_result (out : outcome) : result str :=
  match out with
  | Raises e => Err e
  | Returns response => interpret_response response
  end.

(** ** The operating system *)

(** What the operating system does when a file is written: [open_error] is
    what opening a path for writing raises, if anything (a name that is too
    long, a directory in the way, no permission); [write_error] is what
    writing a text to the opened file raises, if anything, with what is then
    left in the file (a full disk); [same_file] tells whether another path
    leads to the file a path leads to (another spelling of the path, a link,
    a name that differs in case where case does not count). *)
Class OS : Type := {
  open_error : str -> option exn;
  write_error : str -> str -> option (exn * str);
  same_file : str -> str -> bool
}.

Definition NUL : char := 0%N.

(** The texts that can be encoded as UTF-8: no surrogate code point. *)
Definition encodable (text : str) : bool :=
  forallb (fun c => (c <? 55296)%N || ((57343 <? c)%N && (c <=? 1114111)%N)) text.

(** A path and a text for which [_write_file] meets no obstacle. *)
Definition writable {os : OS} (path text : str) : Prop :=
  ~ In NUL path
  /\ open_error path = None
  /\ encodable text = true
  /\ write_error path text = None.

(** [len(sys.argv) < 2] *)
Definition len_argv_lt_2 (argv : list str) : bool :=
  Z.of_nat (length argv) <? 2.

Section Pipeline.

(** The remote service is a state machine: from its state and a request it
    raises or returns, and moves to a new state. *)
Variable RS : Type.
Variable remote : RS -> request -> outcome * RS.

Context {os : OS}.

(** The file system holds regular files only, each as the code points its
    bytes decode to, and tells what is read at a path.  Which paths lead to
    one file, and what the operating system refuses when a file is written,
    is in [OS].  The trace lists what the run did, oldest first. *)
Record world := mk_world {
  fs : str -> option str;
  service : RS;
  trace : list event
}.

Definition log (e : event) (w : world) : world :=
  mk_world (fs w) (service w) (trace w ++ [e]).

(** Computations that may change the world and may raise. *)
Definition M (A : Type) : Type := world -> result A * world.

Definition ret {A} (a : A) : M A := fun w => (Ok a, w).

Definition raise {A} (e : exn) : M A := fun w => (Err e, w).

Definition bind {A B} (c : M A) (k : A -> M B) : M B :=
  fun w =>
    match c w with
    | (Ok a, w') => k a w'
    | (Err e, w') => (Err e, w')
    end.

(** [try: c  except Exception as e: h e] *)
Definition try_except {A} (c : M A) (h : exn -> M A) : M A :=
  fun w =>
    match c w with
    | (Ok a, w') => (Ok a, w')
    | (Err e, w') => h e w'
    end.

Definition lift {A} (r : result A) : M A := fun w => (r, w).

Notation "x <- c ;; k" := (bind c (fun x => k))
  (at level 61, c at next level, right associativity).
Notation "c ;; k" := (bind c (fun _ => k))
  (at level 61, right associativity).

(** [print(...)] *)
Definition print (m : console_message) : M unit :=
  fun w => (Ok tt, log (EPrint m) w).

(** [time.sleep(seconds)] *)
Definition sleep (seconds : Q) : M unit :=
  fun w => (Ok tt, log (ESleep seconds) w).

(** [os.path.exists(path)] *)
Definition path_exists (path : str) : M bool :=
  fun w =>
    match fs w path with
    | Some _ => (Ok true, w)
    | None => (Ok false, w)
    end.

(** [open(path, "r", encoding="utf-8")] and [f.read()]: opening a path that
    is not there raises; the text is read with universal newlines. *)
Definition _read_file (path : str) : M str :=
  fun w =>
    match fs w path with
    | Some text => (Ok (universal_newlines text), log (ERead path) w)
    | None => (Err (FileNotFoundError path), w)
    end.

(** [open(path, "w", encoding="utf-8")] and [f.write(text)].  A path with a
    NUL in it is refused before the operating system is asked.  Opening
    creates the file or empties it; a text that cannot be encoded, or that
    the operating system fails to write, raises after that.  On POSIX the
    text is written as it is.  What is put in the file is from then on read
    at the path and at every path that leads to the same file. *)
Definition _write_file (path : str) (text : str) : M unit :=
  fun w =>
    if existsb (char_eqb NUL) path then (Err (ValueError EmbeddedNullByte), w)
    else
      match open_error path with
      | Some e => (Err e, w)
      | None =>
          let holding (content : str) (evs : list event) :=
            mk_world (fun p => if str_eqb p path || same_file p path
                               then Some content else fs w p)
                     (service w)
                     (trace w ++ EOpen path :: evs) in
          if negb (encodable text) then (Err UnicodeEncodeError, holding [] [])
          else
            match write_error path text with
            | Some (e, remains) => (Err e, holding remains [])
            | None => (Ok tt, holding text [EWrite path text])
            end
      end.

(** [client.chat.completions.create(...)] *)
Definition create (req : request) : M (option completion) :=
  fun w =>
    let '(out, s') := remote (service w) req in
    let w' := mk_world (fs w) s' (trace w ++ [ECall req]) in
    match out with
    | Raises e => (Err e, w')
    | Returns response => (Ok response, w')
    end.

Definition _translate_chunk (chunk target_lang : str) : M str :=
  response <- create (chunk_request chunk target_lang) ;;
  lift (interpret_response response).

(** One turn of the [for i, chunk in enumerate(chunks, start=1)] loop of
    [translate]; [n] is [len(chunks)]. *)
Definition translate_one (target_lang : str) (n i : nat) (chunk : str)
    (translated_chunks : list str) : M (list str) :=
  print (MsgTranslatingChunk i n target_lang) ;;
  translated_chunks <-
    try_except
      (translated <- _translate_chunk chunk target_lang ;;
       ret (translated_chunks ++ [translated]))
      (fun e =>
         print (MsgErrorOnChunk i e) ;;
         print MsgRetrying ;;
         sleep 5 ;;
         translated <- _translate_chunk chunk target_lang ;;
         ret (translated_chunks ++ [translated])) ;;
  sleep SLEEP_BETWEEN_CALLS ;;
  ret translated_chunks.

Fixpoint translate_loop (target_lang : str) (n i : nat) (chunks : list str)
    (translated_chunks : list str) : M (list str) :=
  match chunks with
  | [] => ret translated_chunks
  | chunk :: rest =>
      translated_chunks <- translate_one target_lang n i chunk translated_chunks ;;
      translate_loop target_lang n (S i) rest translated_chunks
  end.

(** The name of the output file for a language and an input path. *)
Definition output_name (target_lang : str) (input_path : PurePath.t) : str :=
  target_lang ++ lit "." ++ PurePath.stem input_path ++ lit ".srt".

Definition translate (srt_path : str) (target_lang : option str) : M str :=
  found <- path_exists srt_path ;;
  if negb found then raise (FileNotFoundError srt_path) else
  match target_lang with
  | None => raise (ValueError TargetLangRequired)
  | Some target_lang =>
      if negb (truthy target_lang) then raise (ValueError TargetLangRequired) else
      print MsgReadingFile ;;
      original_text <- _read_file srt_path ;;
      print MsgChunking ;;
      let chunks := _chunk_text original_text MAX_CHARS_PER_CHUNK in
      print (MsgTotalChunks (length chunks)) ;;
      translated_chunks <-
        translate_loop target_lang (length chunks) 1 chunks [] ;;
      print MsgRebuilding ;;
      let cleaned_chunks := map strip translated_chunks in
      let final_text := join [LF] cleaned_chunks in
      let input_path := PurePath.Path srt_path in
      output <- lift (PurePath.with_name input_path
                        (output_name target_lang input_path)) ;;
      let output_path := PurePath.to_str output in
      _write_file output_path final_text ;;
      print (MsgDone output_path) ;;
      ret output_path
  end.

Definition languages : list str :=
  map lit ["en"; "es-419"; "es-ES"; "pt-BR"; "pt-PT"; "fr"; "de"; "ar"; "hi";
           "bn"; "ur"; "id"; "vi"; "tr"; "zh-Hans"]%string.

Definition secondary_langs : list str :=
  map lit ["it"; "ja"; "ko"; "th"; "pl"; "nl"]%string.

Definition all_langs : list str := languages ++ secondary_langs.

Fixpoint for_each {A} (xs : list A) (body : A -> M unit) : M unit :=
  match xs with
  | [] => ret tt
  | x :: rest => body x ;; for_each rest body
  end.

Definition translate_batch (file_path : str) : M unit :=
  for_each all_langs
    (fun lang =>
       print (MsgTranslatingTo lang) ;;
       _ <- translate file_path (Some lang) ;;
       ret tt).

(** The single-language pipeline run for each language of a list, one after
    the other, each run announced, succeeding, and starting in the world the
    previous one left. *)
Inductive sequential_runs (file_path : str) : list str -> world -> world -> Prop :=
| runs_done (w : world) : sequential_runs file_path [] w w
| runs_next (lang : str) (langs : list str) (w w1 w2 : world) (out : str) :
    translate file_path (Some lang) (log (EPrint (MsgTranslatingTo lang)) w)
    = (Ok out, w1) ->
    sequential_runs file_path langs w1 w2 ->
    sequential_runs file_path (lang :: langs) w w2.

(** How the script ends: with the usage line printed and an exit status, or
    with what [translate_batch] returned or raised. *)
Inductive script_end :=
| UsageExit (status : Z)
| Ran (r : result unit).

(** The [if __name__ == "__main__":] block, given [sys.argv]. *)
Definition main (argv : list str) : world -> script_end * world :=
  fun w =>
    if len_argv_lt_2 argv then (UsageExit 1, w)
    else
      let file_path := nth 1 argv [] in
      let '(r, w') := translate_batch file_path w in
      (Ran r, w').

End Pipeline.

Arguments mk_world {RS} fs service trace.
Arguments fs {RS} w.
Arguments service {RS} w.
Arguments trace {RS} w.
Arguments translate {RS} remote {os} srt_path target_lang.
Arguments translate_batch {RS} remote {os} file_path.
Arguments translate_one {RS} remote target_lang n i chunk translated_chunks.
Arguments translate_loop {RS} remote target_lang n i chunks translated_chunks.
Arguments _translate_chunk {RS} remote chunk target_lang.
Arguments create {RS} remote req.
Arguments _read_file {RS} path.
Arguments _write_file {RS os} path text.
Arguments path_exists {RS} path.
Arguments print {RS} m.
Arguments sleep {RS} seconds.
Arguments log {RS} e w.
Arguments M RS A : clear implicits.
Arguments ret {RS A} a.
Arguments raise {RS A} e.
Arguments bind {RS A B} c k.
Arguments try_except {RS A} c h.
Arguments lift {RS A} r.
Arguments for_each {RS A} xs body.
Arguments output_name target_lang input_path : simpl never.
Arguments sequential_runs {RS} remote {os} file_path langs w w'.
Arguments main {RS} remote {os} argv.

(** The text of the path beside [srt_path] whose name is the output name
    for [target_lang]. *)
Definition expected_output_path (srt_path target_lang : str) : str :=
  let input_path := PurePath.Path srt_path in
  PurePath.to_str
    (PurePath.mk (PurePath.root input_path)
       (removelast (PurePath.tail input_path)
        ++ [output_name target_lang input_path])).

(** ** Stubs and small worlds to run the program on *)

(** A response with one choice whose message has the given text. *)
Definition text_response (text : str) : option completion :=
  Some (mk_completion [mk_choice (Some (mk_message (Some text)))]).

(** A service that answers every request with its own text. *)
Definition echo_remote (s : unit) (req : request) : outcome * unit :=
  (Returns (text_response (req_user req)), s).

(** A service that answers every request with the same text. *)
Definition canned_remote (text : str) (s : unit) (req : request) : outcome * unit :=
  (Returns (text_response text), s).

(** A service that always fails. *)
Definition down_remote (s : unit) (req : request) : outcome * unit :=
  (Raises (RemoteCallError (lit "unavailable")), s).

(** A service that fails its first [k] calls and echoes afterwards; its
    state counts the failures left. *)
Definition flaky_remote (k : nat) (req : request) : outcome * nat :=
  match k with
  | S k' => (Raises (RemoteCallError (lit "rate limit")), k')
  | O => (Returns (text_response (req_user req)), O)
  end.

(** A service that echoes its first [k] calls and fails afterwards; its
    state counts the answers left. *)
Definition fading_remote (k : nat) (req : request) : outcome * nat :=
  match k with
  | S k' => (Returns (text_response (req_user req)), k')
  | O => (Raises (RemoteCallError (lit "quota exceeded")), O)
  end.

(** An operating system that refuses nothing, with one path for each
    file. *)
Definition plain_os : OS :=
  {| open_error := fun _ => None;
     write_error := fun _ _ => None;
     same_file := fun _ _ => false |}.

(** An operating system on which no name longer than 255 can be opened. *)
Definition short_names_os : OS :=
  {| open_error := fun path =>
       if (255 <? len (PurePath.name (PurePath.Path path)))
       then Some (OSError 36) else None;
     write_error := fun _ _ => None;
     same_file := fun _ _ => false |}.

(** A file system with one file. *)
Definition one_file (path text : str) : str -> option str :=
  fun p => if str_eqb p path then Some text else None.

Definition start {RS} (files : str -> option str) (s : RS) : world RS :=
  mk_world files s [].

(** ** Notions used to state what the program does *)

(** Groups of lines are packed when no group could have taken the first line
    of the next one within the budget. *)
Fixpoint packed (max_chars : Z) (groups : list (list str)) : Prop :=
  match groups with
  | [] => True
  | g :: rest =>
      match rest with
      | [] => True
      | next :: _ => max_chars < len (concat g) + len (hd [] next)
      end
      /\ packed max_chars rest
  end.

(** [erased old s r]: [r] is [s] with the occurrences of [old], found from
    the left and not overlapping, cut out, and nothing else changed. *)
Inductive erased (old : str) : str -> str -> Prop :=
| erased_nil : erased old [] []
| erased_cut (rest r : str) :
    erased old rest r -> erased old (old ++ rest) r
| erased_keep (c : char) (s r : str) :
    startswith old (c :: s) = false ->
    erased old s r -> erased old (c :: s) (c :: r).

(** The number of backticks a text starts with. *)
Fixpoint backticks (s : str) : nat :=
  match s with
  | [] => O
  | c :: s' => if char_eqb c BACKTICK then S (backticks s') else O
  end.

(** A text in which no three backticks follow one another. *)
Fixpoint fence_free (s : str) : Prop :=
  match s with
  | [] => True
  | _ :: s' => (backticks s < 3)%nat /\ fence_free s'
  end.

(** * Properties *)

(** ** Lines *)

Section Lines.

Lemma truthy_nonempty (s : str) : truthy s = true <-> s <> [].
Proof.
  destruct s; simpl; split; intros H; try congruence; try discriminate.
Qed.

Lemma len_app (a b : str) : len (a ++ b) = len a + len b.
Proof. unfold len. rewrite length_app. lia. Qed.

Lemma len_nonneg (a : str) : 0 <= len a.
Proof. unfold len. lia. Qed.

(** The recursion of [splitlines_from] steps over one or two code points, so
    its properties go by induction on a bound of the length. *)
Lemma splitlines_from_concat_bounded (n : nat) :
  forall s cur, (length s <= n)%nat -> concat (splitlines_from cur s) = cur ++ s.
Proof.
  induction n as [|n IH]; intros s cur Hn.
  - destruct s; simpl in *; [|lia].
    destruct cur; simpl; now rewrite ?app_nil_r.
  - destruct s as [|c rest]; simpl.
    + destruct cur; simpl; now rewrite ?app_nil_r.
    + simpl in Hn.
      destruct (is_linebreak c).
      * destruct (char_eqb c CR).
        -- destruct rest as [|d rest'].
           ++ simpl. now rewrite app_nil_r.
           ++ destruct (char_eqb d LF); rewrite concat_cons.
              ** rewrite IH by (simpl in Hn; lia). simpl.
                 now rewrite <- app_assoc.
              ** rewrite IH by lia. simpl. now rewrite <- app_assoc.
        -- rewrite concat_cons, IH by lia. simpl. now rewrite <- app_assoc.
      * rewrite IH by lia. now rewrite <- app_assoc.
Qed.

Lemma splitlines_concat (s : str) : concat (splitlines s) = s.
Proof.
  unfold splitlines.
  now rewrite (splitlines_from_concat_bounded (length s)).
Qed.

Lemma splitlines_from_nonempty_bounded (n : nat) :
  forall s cur, (length s <= n)%nat ->
    Forall (fun line => line <> []) (splitlines_from cur s).
Proof.
  assert (Hsnoc : forall (cur tl : str) c, cur ++ c :: tl <> []).
  { intros cur tl c H. now destruct cur. }
  induction n as [|n IH]; intros s cur Hn.
  - destruct s; simpl in *; [|lia].
    destruct cur; simpl; constructor; [discriminate | constructor].
  - destruct s as [|c rest]; simpl.
    + destruct cur; simpl; constructor; [discriminate | constructor].
    + simpl in Hn.
      destruct (is_linebreak c).
      * destruct (char_eqb c CR).
        -- destruct rest as [|d rest'].
           ++ constructor; [apply Hsnoc | simpl; constructor].
           ++ destruct (char_eqb d LF); constructor;
                try apply Hsnoc; apply IH; simpl in Hn |- *; lia.
        -- constructor; [apply Hsnoc | apply IH; lia].
      * apply IH; lia.
Qed.

Lemma splitlines_nonempty (s : str) :
  Forall (fun line => line <> []) (splitlines s).
Proof. apply (splitlines_from_nonempty_bounded (length s)). lia. Qed.

End Lines.

(** ** The chunker *)

Section Chunker.

Variable max_chars : Z.

Lemma chunk_loop_cons line lines st :
  chunk_loop max_chars (line :: lines) st
  = chunk_loop max_chars lines (chunk_step max_chars st line).
Proof. reflexivity. Qed.

(** What the loop leaves in [chunks] and [current] is all it started with
    followed by the lines, in order. *)
Lemma chunk_loop_concat lines :
  forall chunks current,
    let '(chunks', current') := chunk_loop max_chars lines (chunks, current) in
    concat chunks' ++ current' = concat chunks ++ current ++ concat lines.
Proof.
  induction lines as [|line lines IH]; intros chunks current.
  - simpl. now rewrite app_nil_r.
  - rewrite chunk_loop_cons. unfold chunk_step.
    destruct (len current + len line >? max_chars).
    + specialize (IH (chunks ++ [current]) ([] ++ line)).
      destruct (chunk_loop max_chars lines _) as [chunks' current'].
      rewrite IH, concat_app. simpl.
      now rewrite app_nil_r, <- !app_assoc.
    + specialize (IH chunks (current ++ line)).
      destruct (chunk_loop max_chars lines _) as [chunks' current'].
      rewrite IH. simpl. now rewrite <- !app_assoc.
Qed.

(** The loop keeps whole lines together: its state is always the texts of
    groups of lines that fit. *)
Lemma chunk_loop_groups lines :
  forall gs g,
    Forall (fits max_chars) gs -> fits max_chars g ->
    exists gs' g',
      chunk_loop max_chars lines (map (@concat char) gs, concat g)
      = (map (@concat char) gs', concat g')
      /\ concat (gs' ++ [g']) = concat (gs ++ [g]) ++ lines
      /\ Forall (fits max_chars) gs' /\ fits max_chars g'.
Proof.
  induction lines as [|line lines IH]; intros gs g Hgs Hg.
  - exists gs, g. simpl. now rewrite app_nil_r.
  - rewrite chunk_loop_cons. unfold chunk_step.
    destruct (len (concat g) + len line >? max_chars) eqn:Hcmp.
    + destruct (IH (gs ++ [g]) [line]) as (gs' & g' & Hrun & Hcat & Hfs & Hf).
      * apply Forall_app. split; [assumption | now constructor].
      * destruct (Z_le_gt_dec (len line) max_chars) as [Hle | Hgt].
        -- left. simpl. now rewrite app_nil_r.
        -- right. exists line. split; [reflexivity | lia].
      * exists gs', g'. repeat split; try assumption.
        -- rewrite <- Hrun. rewrite map_app. simpl. now rewrite app_nil_r.
        -- rewrite Hcat. rewrite !concat_app. simpl.
           now rewrite !app_nil_r, <- !app_assoc.
    + destruct (IH gs (g ++ [line])) as (gs' & g' & Hrun & Hcat & Hfs & Hf).
      * assumption.
      * left. rewrite concat_app, len_app. simpl. rewrite app_nil_r.
        rewrite Z.gtb_ltb in Hcmp. apply Z.ltb_ge in Hcmp. exact Hcmp.
      * exists gs', g'. repeat split; try assumption.
        -- rewrite <- Hrun. rewrite concat_app. simpl. now rewrite app_nil_r.
        -- rewrite Hcat. rewrite !concat_app. simpl.
           now rewrite !app_nil_r, <- !app_assoc.
Qed.

End Chunker.

(** Name the two variables the loop ends with, wherever it occurs. *)
Ltac case_chunk_loop chunks current :=
  unfold str in *;
  match goal with
  | |- context [chunk_loop ?m ?ls ?st] =>
      destruct (chunk_loop m ls st) as [chunks current]
  end.

Section ChunkerContract.

Variable max_chars : Z.
Hypothesis budget_positive : 0 < max_chars.

Lemma fits_nil : fits max_chars [].
Proof. left. simpl. unfold len. simpl. lia. Qed.

Lemma len_in_concat (g : list str) (line : str) :
  In line g -> len line <= len (concat g).
Proof.
  induction g as [|x g IH]; simpl; intros Hin; [contradiction|].
  rewrite len_app. destruct Hin as [-> | Hin].
  - pose proof (len_nonneg (concat g)). lia.
  - specialize (IH Hin). pose proof (len_nonneg x). lia.
Qed.

Lemma concat_nil_nonempty (g : list str) :
  Forall (fun line => line <> []) g -> concat g = [] -> g = [].
Proof.
  destruct g as [|x g]; [reflexivity|].
  intros Hne Hcat. inversion Hne as [|? ? Hx _]; subst.
  simpl in Hcat. apply app_eq_nil in Hcat. destruct Hcat as [Hx' _].
  contradiction.
Qed.

(** The chunks are the texts of groups of whole consecutive lines, each
    group fitting the budget. *)
Lemma chunk_text_groups (text : str) :
  exists groups,
    concat groups = splitlines text
    /\ map (@concat char) groups = _chunk_text text max_chars
    /\ Forall (fits max_chars) groups.
Proof.
  unfold _chunk_text.
  destruct (chunk_loop_groups max_chars (splitlines text) [] [])
    as (gs & g & Hrun & Hcat & Hgs & Hg).
  - constructor.
  - apply fits_nil.
  - change (chunk_loop max_chars (splitlines text) ([], [])
            = (map (@concat char) gs, concat g)) in Hrun.
    simpl in Hcat. rewrite Hrun.
    destruct (truthy (concat g)) eqn:Hcur.
    + exists (gs ++ [g]). repeat split.
      * exact Hcat.
      * now rewrite map_app.
      * apply Forall_app. split; [assumption | now constructor].
    + assert (Hg0 : g = []).
      { apply concat_nil_nonempty.
        - pose proof (splitlines_nonempty text) as Hne.
          rewrite <- Hcat, concat_app in Hne.
          apply Forall_app in Hne. destruct Hne as [_ Hne].
          simpl in Hne. now rewrite app_nil_r in Hne.
        - destruct (concat g); [reflexivity | discriminate]. }
      subst g. exists gs. repeat split; try assumption.
      rewrite <- Hcat, concat_app. simpl. now rewrite app_nil_r.
Qed.

(** Once a line has been taken, [current] is never empty again, so the only
    chunk that can be empty is the one flushed before the first line. *)
Lemma chunk_loop_nonempty lines :
  Forall (fun line => line <> []) lines ->
  forall chunks current,
    Forall (fun chunk => chunk <> []) chunks -> current <> [] ->
    Forall (fun chunk => chunk <> []) (fst (chunk_loop max_chars lines (chunks, current)))
    /\ snd (chunk_loop max_chars lines (chunks, current)) <> [].
Proof.
  induction 1 as [|line lines Hline _ IH]; intros chunks current Hcs Hc.
  - simpl. now split.
  - rewrite chunk_loop_cons. unfold chunk_step.
    destruct (len current + len line >? max_chars).
    + apply IH.
      * apply Forall_app. split; [assumption | now constructor].
      * exact Hline.
    + apply IH; [assumption|].
      intros H. apply app_eq_nil in H. now destruct H.
Qed.

Lemma chunk_text_nonempty_when_first_line_fits (text : str) :
  len (hd [] (splitlines text)) <= max_chars ->
  Forall (fun chunk => chunk <> []) (_chunk_text text max_chars).
Proof.
  unfold _chunk_text. pose proof (splitlines_nonempty text) as Hne.
  destruct (splitlines text) as [|line lines]; cbn [hd]; intros Hfit.
  - simpl. constructor.
  - inversion Hne as [|? ? Hline Hlines]; subst.
    rewrite chunk_loop_cons. unfold chunk_step.
    replace (len [] + len line >? max_chars) with false.
    2:{ symmetry. rewrite Z.gtb_ltb. apply Z.ltb_ge. unfold len at 1. simpl. lia. }
    change ([] ++ line) with line.
    pose proof (chunk_loop_nonempty lines Hlines [] line
                  (Forall_nil _) Hline) as [Hcs Hc].
    case_chunk_loop chunks current.
    simpl in Hcs, Hc.
    destruct (truthy current); [|assumption].
    apply Forall_app. split; [assumption | now constructor].
Qed.

End ChunkerContract.

(** C1: for every text and every positive budget, the chunks of
    [_chunk_text], concatenated in order, are the text itself: no line is
    lost, repeated or moved. *)
Theorem chunk_text_concat (text : str) (max_chars : Z) :
  0 < max_chars -> concat (_chunk_text text max_chars) = text.
Proof.
  intros _. unfold _chunk_text.
  pose proof (chunk_loop_concat max_chars (splitlines text) [] []) as H.
  case_chunk_loop chunks current.
  simpl in H. rewrite splitlines_concat in H.
  destruct (truthy current) eqn:Hcur.
  - rewrite concat_app. simpl. now rewrite app_nil_r.
  - destruct current; [|discriminate]. now rewrite app_nil_r in H.
Qed.

Lemma chunk_text_concat_witness :
  0 < 6 /\ concat (_chunk_text (lit "1
hello
world
") 6) = lit "1
hello
world
".
Proof. split; [lia | apply chunk_text_concat; lia]. Defined.

(** C2: for every text and every positive budget, the chunks are the texts
    of groups of whole consecutive lines; every chunk is within the budget
    unless it is exactly one line that alone exceeds the budget, and every
    such line is a chunk of its own, whole. *)
Theorem chunk_text_within_budget (text : str) (max_chars : Z) :
  0 < max_chars ->
  (exists groups,
      concat groups = splitlines text
      /\ map (@concat char) groups = _chunk_text text max_chars
      /\ Forall (fits max_chars) groups)
  /\ (forall chunk, In chunk (_chunk_text text max_chars) ->
        len chunk <= max_chars
        \/ (max_chars < len chunk /\ In chunk (splitlines text)))
  /\ (forall line, In line (splitlines text) -> max_chars < len line ->
        In line (_chunk_text text max_chars)).
Proof.
  intros Hpos.
  destruct (chunk_text_groups max_chars Hpos text) as (groups & Hcat & Hmap & Hfits).
  rewrite Forall_forall in Hfits.
  split; [|split].
  - exists groups. rewrite Forall_forall. auto.
  - intros chunk Hin. rewrite <- Hmap in Hin.
    apply in_map_iff in Hin. destruct Hin as (g & <- & Hg).
    destruct (Hfits g Hg) as [Hle | (line & -> & Hbig)].
    + now left.
    + right. simpl. rewrite app_nil_r. split; [assumption|].
      rewrite <- Hcat. apply in_concat. exists [line]. split; [assumption | now left].
  - intros line Hin Hbig. rewrite <- Hcat in Hin.
    apply in_concat in Hin. destruct Hin as (g & Hg & Hline).
    destruct (Hfits g Hg) as [Hle | (l & -> & _)].
    + pose proof (len_in_concat g line Hline). lia.
    + destruct Hline as [-> | []].
      rewrite <- Hmap. apply in_map_iff. exists [line]. split; [|assumption].
      simpl. now rewrite app_nil_r.
Qed.

Lemma chunk_text_within_budget_witness :
  0 < 3 /\
  In (lit "abcdef
") (_chunk_text (lit "ab
abcdef
c") 3).
Proof.
  split; [lia|].
  apply (chunk_text_within_budget (lit "ab
abcdef
c") 3); [lia | vm_compute; auto | vm_compute; reflexivity].
Defined.

(** C3 (fails): a first line longer than the budget makes the loop flush the
    still empty [current], so the first chunk is the empty string. *)
Theorem chunk_text_emits_empty_chunk :
  _chunk_text (lit "abcdef") 3 = [[]; lit "abcdef"].
Proof. reflexivity. Qed.

(** ** Paths *)

Section Paths.

Import PurePath.

Lemma char_eqb_eq (a b : char) : char_eqb a b = true <-> a = b.
Proof. apply N.eqb_eq. Qed.

Lemma char_eqb_neq (a b : char) : char_eqb a b = false <-> a <> b.
Proof. apply N.eqb_neq. Qed.

Lemma str_eqb_eq (a b : str) : str_eqb a b = true <-> a = b.
Proof.
  revert b. induction a as [|x a IH]; intros [|y b]; simpl;
    try (split; [discriminate | discriminate]); try tauto.
  rewrite andb_true_iff, char_eqb_eq, IH.
  split; [intros [-> ->]; reflexivity | intros [= -> ->]; auto].
Qed.

Lemma str_eqb_refl (a : str) : str_eqb a a = true.
Proof. now apply str_eqb_eq. Qed.

Lemma no_sep_existsb (x : str) :
  existsb (char_eqb SEP) x = false <-> ~ In SEP x.
Proof.
  induction x as [|c x IH]; cbn [existsb In].
  - tauto.
  - rewrite orb_false_iff, IH, char_eqb_neq. intuition congruence.
Qed.

(** Splitting never leaves a separator inside a piece. *)
Lemma split_from_no_sep (s : str) :
  forall cur, ~ In SEP cur -> Forall (fun x => ~ In SEP x) (split_from SEP cur s).
Proof.
  induction s as [|c s IH]; intros cur Hcur; simpl.
  - now constructor.
  - destruct (char_eqb c SEP) eqn:Hc.
    + constructor; [assumption | apply IH; intros []].
    + apply IH. intros Hin. apply in_app_or in Hin.
      destruct Hin as [Hin | [Heq | []]]; [contradiction|].
      apply char_eqb_neq in Hc. congruence.
Qed.

Lemma splitroot_root (s : str) :
  fst (splitroot s) = [] \/ fst (splitroot s) = [SEP]
  \/ fst (splitroot s) = [SEP; SEP].
Proof.
  unfold splitroot.
  destruct s as [|c1 [|c2 [|c3 s]]]; simpl;
    repeat match goal with
      | |- context [if ?b then _ else _] => destruct b; simpl
      end; auto.
Qed.

Lemma Path_well_formed (s : str) : well_formed (Path s).
Proof.
  unfold Path. pose proof (splitroot_root s) as Hroot.
  destruct (splitroot s) as [r rel]. split; [exact Hroot|]. simpl.
  apply Forall_forall. intros x Hx. apply filter_In in Hx.
  destruct Hx as [Hx Hkeep]. apply andb_true_iff in Hkeep.
  destruct Hkeep as [Hne Hdot].
  pose proof (split_from_no_sep rel [] (fun H => H)) as Hsep.
  rewrite Forall_forall in Hsep.
  repeat split.
  - now apply truthy_nonempty.
  - now apply Hsep.
  - intros ->. now rewrite str_eqb_refl in Hdot.
Qed.

Lemma split_from_sep_free (x : str) :
  forall cur, ~ In SEP x -> split_from SEP cur x = [cur ++ x].
Proof.
  induction x as [|c x IH]; intros cur Hx; simpl.
  - now rewrite app_nil_r.
  - replace (char_eqb c SEP) with false.
    + rewrite IH, <- app_assoc; [reflexivity|]. intros H. apply Hx. now right.
    + symmetry. apply char_eqb_neq. intros ->. apply Hx. now left.
Qed.

Lemma split_from_app_sep (x rest : str) :
  forall cur, ~ In SEP x ->
    split_from SEP cur (x ++ SEP :: rest) = (cur ++ x) :: split_from SEP [] rest.
Proof.
  induction x as [|c x IH]; intros cur Hx; simpl.
  - now rewrite app_nil_r.
  - replace (char_eqb c SEP) with false.
    + rewrite IH, <- app_assoc; [reflexivity|]. intros H. apply Hx. now right.
    + symmetry. apply char_eqb_neq. intros ->. apply Hx. now left.
Qed.

(** Splitting what [join] built gives the pieces back. *)
Lemma split_join (xs : list str) :
  forall x, Forall (fun y => ~ In SEP y) (x :: xs) ->
    split SEP (join [SEP] (x :: xs)) = x :: xs.
Proof.
  unfold split.
  induction xs as [|y ys IH]; intros x Hall; inversion Hall as [|? ? Hx Hrest]; subst.
  - simpl. now rewrite split_from_sep_free.
  - change (join [SEP] (x :: y :: ys)) with (x ++ SEP :: join [SEP] (y :: ys)).
    rewrite split_from_app_sep by assumption. simpl app.
    now rewrite IH.
Qed.

Lemma filter_components (xs : list str) :
  Forall component xs ->
  filter (fun x => truthy x && negb (str_eqb x [DOT])) xs = xs.
Proof.
  induction 1 as [|x xs (Hne & _ & Hdot) _ IH]; simpl; [reflexivity|].
  replace (truthy x) with true by (symmetry; now apply truthy_nonempty).
  replace (str_eqb x [DOT]) with false.
  - simpl. now rewrite IH.
  - symmetry. apply not_true_is_false. rewrite str_eqb_eq. exact Hdot.
Qed.

Lemma join_head (x : str) (xs : list str) :
  component x ->
  exists c rest, join [SEP] (x :: xs) = c :: rest /\ c <> SEP.
Proof.
  intros (Hne & Hsep & _). destruct x as [|c x]; [contradiction|].
  exists c. destruct xs as [|y ys]; simpl; eexists; split; try reflexivity;
    intros ->; apply Hsep; now left.
Qed.

Lemma splitroot_relative (c : char) (rest : str) :
  c <> SEP ->
  splitroot (c :: rest) = ([], c :: rest)
  /\ splitroot (SEP :: c :: rest) = ([SEP], c :: rest)
  /\ splitroot (SEP :: SEP :: c :: rest) = ([SEP; SEP], c :: rest).
Proof.
  intros Hc. apply char_eqb_neq in Hc. unfold splitroot.
  change (char_eqb SEP SEP) with true. cbv iota. now rewrite Hc.
Qed.

(** A well-formed path is what [Path] reads back from its text. *)
Lemma Path_to_str (p : t) : well_formed p -> Path (to_str p) = p.
Proof.
  destruct p as [r xs]. intros [Hroot Hall]. simpl in Hroot, Hall.
  unfold to_str. cbn [root tail].
  destruct xs as [|x xs].
  - destruct Hroot as [-> | [-> | ->]]; reflexivity.
  - inversion Hall as [|? ? Hx Hxs]; subst.
    destruct (join_head x xs Hx) as (c & rest & Hjoin & Hc).
    destruct (splitroot_relative c rest Hc) as (H0 & H1 & H2).
    assert (Hsplit : filter (fun y => truthy y && negb (str_eqb y [DOT]))
                       (split SEP (c :: rest)) = x :: xs).
    { rewrite <- Hjoin, split_join.
      - now apply filter_components.
      - eapply Forall_impl; [|exact Hall]. now intros y (_ & Hy & _). }
    rewrite Hjoin.
    destruct Hroot as [-> | [-> | ->]]; cbn [app truthy]; unfold Path;
      rewrite ?H0, ?H1, ?H2; now rewrite Hsplit.
Qed.

Lemma Forall_removelast {A} (P : A -> Prop) (l : list A) :
  Forall P l -> Forall P (removelast l).
Proof.
  induction 1 as [|x l Hx Hl IH]; simpl; [constructor|].
  destruct l; [constructor | now constructor].
Qed.

Lemma name_component (p : t) :
  well_formed p -> name p <> [] -> component (name p).
Proof.
  intros [_ Hall] Hname. unfold name in *.
  destruct (tail p) as [|x xs] eqn:Htail; [now simpl in Hname|].
  rewrite (app_removelast_last (l := x :: xs) [] ltac:(discriminate)) in Hall.
  apply Forall_app in Hall. destruct Hall as [_ Hlast].
  now inversion Hlast.
Qed.

Lemma stem_no_sep (p : t) :
  well_formed p -> ~ In SEP (stem p).
Proof.
  intros Hwf. unfold stem.
  assert (Hname : ~ In SEP (name p)).
  { destruct (name p) eqn:E; [intros []|].
    rewrite <- E. apply name_component; [assumption | congruence]. }
  destruct (_ && _); [|exact Hname].
  intros Hin. apply Hname.
  rewrite <- (firstn_skipn (Z.to_nat (rfind DOT (name p))) (name p)).
  apply in_or_app. now left.
Qed.

(** A name without a separator is read back as itself, or as nothing when
    it is a dot. *)
Lemma Path_plain (n : str) :
  n <> [] -> ~ In SEP n ->
  Path n = mk [] (if str_eqb n [DOT] then [] else [n]).
Proof.
  intros Hne Hsep. unfold Path.
  assert (Hroot : splitroot n = ([], n)).
  { destruct n as [|c n']; [contradiction|]. unfold splitroot.
    replace (char_eqb c SEP) with false; [reflexivity|].
    symmetry. apply char_eqb_neq. intros ->. apply Hsep. now left. }
  rewrite Hroot. unfold split. rewrite split_from_sep_free by exact Hsep.
  cbn [app filter]. apply truthy_nonempty in Hne. rewrite Hne. cbn [andb].
  now destruct (str_eqb n [DOT]).
Qed.

Lemma last_in {A} (l : list A) (d : A) : l <> [] -> In (last l d) l.
Proof.
  intros H. rewrite (app_removelast_last d H) at 2.
  apply in_or_app. right. now left.
Qed.

(** When [with_name] returns, the path had a name, the new name is not
    empty, and only the last component has changed. *)
Lemma with_name_ok (p q : t) (new_name : str) :
  with_name p new_name = Ok q ->
  name p <> [] /\ new_name <> []
  /\ q = mk (root p) (removelast (tail p) ++ [new_name]).
Proof.
  unfold with_name.
  destruct (truthy (name p)) eqn:Hname; cbn [negb]; [|discriminate].
  destruct (truthy new_name) eqn:Hnew; cbn [negb orb]; [|discriminate].
  destruct (_ || _ || _); [discriminate|].
  intros [= <-]. repeat split; now apply truthy_nonempty.
Qed.

(** A new name without a separator that [with_name] takes is a proper
    component. *)
Lemma with_name_ok_plain (p q : t) (new_name : str) :
  with_name p new_name = Ok q -> ~ In SEP new_name -> component new_name.
Proof.
  intros Hok Hsep. pose proof (with_name_ok p q new_name Hok) as (_ & Hne & _).
  repeat split; try assumption.
  intros ->. unfold with_name in Hok.
  destruct (negb (truthy (name p))); [discriminate|].
  vm_compute in Hok. discriminate.
Qed.

Lemma with_name_component (p : t) (new_name : str) :
  name p <> [] -> component new_name ->
  with_name p new_name = Ok (mk (root p) (removelast (tail p) ++ [new_name])).
Proof.
  intros Hname (Hne & Hsep & Hdot). unfold with_name.
  rewrite (Path_plain new_name Hne Hsep). cbn [root tail].
  replace (str_eqb new_name [DOT]) with false
    by (symmetry; apply not_true_is_false; now rewrite str_eqb_eq).
  replace (char_eqb (last new_name DOT) SEP) with false.
  - apply truthy_nonempty in Hname, Hne. rewrite Hname, Hne. reflexivity.
  - symmetry. apply char_eqb_neq. intros Hlast. apply Hsep.
    rewrite <- Hlast. now apply last_in.
Qed.

Lemma with_name_well_formed (p : t) (new_name : str) :
  well_formed p -> component new_name ->
  well_formed (mk (root p) (removelast (tail p) ++ [new_name])).
Proof.
  intros [Hroot Hall] Hnew. split; [exact Hroot|]. cbn [tail].
  apply Forall_app. split; [now apply Forall_removelast | now constructor].
Qed.

(** Splitting what [join] built with a last piece of any kind gives the
    pieces back and the last one split. *)
Lemma split_join_last (xs : list str) (s : str) :
  Forall (fun y => ~ In SEP y) xs ->
  split SEP (join [SEP] (xs ++ [s])) = xs ++ split SEP s.
Proof.
  unfold split. induction 1 as [|x xs Hx _ IH]; [reflexivity|].
  assert (E : join [SEP] ((x :: xs) ++ [s])
              = x ++ SEP :: join [SEP] (xs ++ [s]))
    by (destruct xs; reflexivity).
  unfold str, char in *. rewrite E.
  rewrite split_from_app_sep by assumption. cbn [app]. f_equal. exact IH.
Qed.

(** A path without a root does not start with a separator. *)
Lemma Path_no_root (s : str) :
  s <> [] -> root (Path s) = [] ->
  exists c rest, s = c :: rest /\ c <> SEP /\ splitroot s = ([], s).
Proof.
  intros Hne Hroot. destruct s as [|c rest]; [contradiction|].
  exists c, rest. unfold Path in Hroot.
  destruct (char_eqb c SEP) eqn:Hc.
  - exfalso. apply char_eqb_eq in Hc. subst c.
    pose proof (splitroot_root (SEP :: rest)) as Hr.
    unfold splitroot in Hroot, Hr. change (char_eqb SEP SEP) with true in *.
    cbv iota in Hroot, Hr.
    destruct rest as [|c2 [|c3 rest]]; cbn [fst root] in *;
      repeat match type of Hroot with
        | context [if ?b then _ else _] => destruct b; cbn [fst root] in *
        end; discriminate.
  - split; [reflexivity|]. split; [now apply char_eqb_neq|].
    unfold splitroot. now rewrite Hc.
Qed.

(** What [with_name] takes as a new name: a text that does not start with
    a separator and reads as a path of one component. *)
Lemma with_name_accepts (p q : t) (new_name : str) :
  with_name p new_name = Ok q ->
  exists c rest x,
    new_name = c :: rest /\ c <> SEP
    /\ filter (fun y => truthy y && negb (str_eqb y [DOT])) (split SEP new_name)
       = [x]
    /\ tail (Path new_name) = [x].
Proof.
  unfold with_name.
  destruct (truthy (name p)); cbn [negb]; [|discriminate].
  destruct (truthy new_name) eqn:Hnew; cbn [negb orb]; [|discriminate].
  destruct (char_eqb (last new_name DOT) SEP); cbn [orb]; [discriminate|].
  destruct (truthy (root (Path new_name))) eqn:Hroot; cbn [orb]; [discriminate|].
  destruct (Nat.eqb (length (tail (Path new_name))) 1) eqn:Hlen;
    cbn [negb]; [|discriminate].
  intros _. apply truthy_nonempty in Hnew.
  assert (Hr : root (Path new_name) = [])
    by (destruct (root (Path new_name)); [reflexivity | discriminate]).
  destruct (Path_no_root new_name Hnew Hr) as (c & rest & -> & Hc & Hsplit).
  apply Nat.eqb_eq in Hlen.
  destruct (tail (Path (c :: rest))) as [|x [|y ys]] eqn:Htail;
    try discriminate.
  exists c, rest, x. split; [reflexivity|]. split; [exact Hc|].
  split; [|reflexivity].
  unfold Path in Htail. rewrite Hsplit in Htail. exact Htail.
Qed.

(** What [Path] reads back from the text of a path [with_name] built: the
    components before the last, then the component the new name reads as. *)
Lemma Path_with_name (p q : t) (new_name : str) :
  well_formed p -> with_name p new_name = Ok q ->
  Path (to_str q)
  = mk (root p) (removelast (tail p) ++ tail (Path new_name)).
Proof.
  intros [Hroot Hall] Hok.
  destruct (with_name_accepts p q new_name Hok)
    as (c & rest & x & Hnew & Hc & Hsplit & Htail).
  destruct (with_name_ok p q new_name Hok) as (_ & _ & ->).
  rewrite Htail. unfold to_str. cbn [root tail].
  pose proof (Forall_removelast _ _ Hall) as Hinit.
  set (init := removelast (tail p)) in *.
  assert (Hparts : filter (fun y => truthy y && negb (str_eqb y [DOT]))
                     (split SEP (join [SEP] (init ++ [new_name])))
                   = init ++ [x]).
  { rewrite split_join_last
      by (eapply Forall_impl; [|exact Hinit]; now intros y (_ & Hy & _)).
    rewrite filter_app, Hsplit. now rewrite filter_components. }
  assert (Hhead : exists c' rest', join [SEP] (init ++ [new_name]) = c' :: rest'
                                   /\ c' <> SEP).
  { destruct init as [|y ys].
    - exists c, rest. now rewrite Hnew.
    - inversion Hinit as [|? ? Hy _]; subst. apply (join_head y _ Hy). }
  destruct Hhead as (c' & rest' & Hjoin & Hc').
  destruct (splitroot_relative c' rest' Hc') as (H0 & H1 & H2).
  rewrite Hjoin in *.
  destruct Hroot as [-> | [-> | ->]]; cbn [app truthy]; unfold Path;
    rewrite ?H0, ?H1, ?H2; now rewrite Hparts.
Qed.

(** The name of a path that was read from a text has no separator. *)
Lemma name_no_sep (s : str) : ~ In SEP (name (Path s)).
Proof.
  destruct (name (Path s)) eqn:E; [intros []|].
  rewrite <- E. apply name_component; [apply Path_well_formed | congruence].
Qed.

End Paths.

(** ** Stripping and replacing *)

Section Cleaning.

Lemma lstrip_spaces (ws s : str) : spaces ws -> lstrip (ws ++ s) = lstrip s.
Proof.
  induction 1 as [|c ws Hc _ IH]; [reflexivity|].
  cbn [app lstrip]. now rewrite Hc.
Qed.

Lemma lstrip_head (c : char) (s : str) :
  is_space c = false -> lstrip (c :: s) = c :: s.
Proof. intros Hc. cbn [lstrip]. now rewrite Hc. Qed.

Lemma rstrip_spaces (s ws : str) : spaces ws -> rstrip (s ++ ws) = rstrip s.
Proof.
  intros Hws. unfold rstrip. rewrite rev_app_distr, lstrip_spaces; [reflexivity|].
  now apply Forall_rev.
Qed.

Lemma rstrip_last (s : str) (c : char) :
  is_space c = false -> rstrip (s ++ [c]) = s ++ [c].
Proof.
  intros Hc. unfold rstrip. rewrite rev_app_distr. cbn [rev app].
  rewrite lstrip_head by assumption.
  cbn [rev]. now rewrite rev_involutive.
Qed.

(** Whitespace around a text that starts and ends with something else is
    all that [strip] takes away. *)
Lemma strip_around (ws1 ws2 mid : str) (a b : char) :
  spaces ws1 -> spaces ws2 -> is_space a = false -> is_space b = false ->
  strip (ws1 ++ (a :: mid ++ [b]) ++ ws2) = a :: mid ++ [b].
Proof.
  intros H1 H2 Ha Hb. unfold strip.
  rewrite lstrip_spaces by assumption. cbn [app].
  rewrite lstrip_head by assumption.
  change (a :: (mid ++ [b]) ++ ws2) with ((a :: mid ++ [b]) ++ ws2).
  rewrite rstrip_spaces by assumption.
  change (a :: mid ++ [b]) with ((a :: mid) ++ [b]).
  now apply rstrip_last.
Qed.

Lemma lstrip_idem (s : str) : lstrip (lstrip s) = lstrip s.
Proof.
  induction s as [|c s IH]; [reflexivity|]. cbn [lstrip].
  destruct (is_space c) eqn:Hc; [exact IH|]. now apply lstrip_head.
Qed.

Lemma lstrip_snoc (s : str) (c : char) :
  is_space c = false -> lstrip (s ++ [c]) = lstrip s ++ [c].
Proof.
  intros Hc. induction s as [|d s IH]; cbn [app lstrip].
  - now rewrite Hc.
  - destruct (is_space d); [exact IH | reflexivity].
Qed.

Lemma lstrip_fixed_head (s : str) :
  lstrip s = s -> s = [] \/ exists c s', s = c :: s' /\ is_space c = false.
Proof.
  destruct s as [|c s']; [now left|]. intros H. right. exists c, s'.
  split; [reflexivity|]. cbn [lstrip] in H.
  destruct (is_space c) eqn:Hc; [|reflexivity]. exfalso.
  assert (Hlen : forall t : str, (length (lstrip t) <= length t)%nat).
  { induction t as [|d t IHt]; cbn [lstrip]; [lia|].
    destruct (is_space d); simpl; lia. }
  specialize (Hlen s'). rewrite H in Hlen. simpl in Hlen. lia.
Qed.

Lemma lstrip_rstrip (s : str) : lstrip s = s -> lstrip (rstrip s) = rstrip s.
Proof.
  intros H. destruct (lstrip_fixed_head s H) as [-> | (c & s' & -> & Hc)];
    [reflexivity|].
  unfold rstrip. cbn [rev]. rewrite lstrip_snoc by assumption.
  rewrite rev_app_distr. cbn [rev app]. now apply lstrip_head.
Qed.

Lemma strip_idem (s : str) : strip (strip s) = strip s.
Proof.
  unfold strip. rewrite lstrip_rstrip by apply lstrip_idem.
  unfold rstrip. now rewrite rev_involutive, lstrip_idem.
Qed.

Lemma lstrip_incl (s : str) (c : char) : In c (lstrip s) -> In c s.
Proof.
  induction s as [|d s IH]; cbn [lstrip]; [auto|].
  destruct (is_space d); [intros H; right; auto | auto].
Qed.

Lemma strip_incl (s : str) (c : char) : In c (strip s) -> In c s.
Proof.
  unfold strip, rstrip. intros H. apply in_rev in H.
  apply lstrip_incl in H. apply in_rev in H. now apply lstrip_incl.
Qed.

(** [replace_from] steps over the code points it has been told to skip. *)
Lemma replace_from_skip (old new pre rest : str) :
  replace_from old new (length pre) (pre ++ rest) = replace_from old new 0 rest.
Proof.
  induction pre as [|c pre IH]; [reflexivity|]. exact IH.
Qed.

Lemma startswith_app (p rest : str) : startswith p (p ++ rest) = true.
Proof.
  induction p as [|c p IH]; [reflexivity|].
  cbn [app startswith]. unfold char_eqb. now rewrite N.eqb_refl.
Qed.

(** An occurrence at the front is replaced, and the search goes on after
    it. *)
Lemma replace_from_match (c : char) (old new rest : str) :
  replace_from (c :: old) new 0 ((c :: old) ++ rest)
  = new ++ replace_from (c :: old) new 0 rest.
Proof.
  cbn [app replace_from].
  change (c :: old ++ rest) with ((c :: old) ++ rest).
  rewrite startswith_app.
  replace (length (c :: old) - 1)%nat with (length old) by (simpl; lia).
  now rewrite replace_from_skip.
Qed.

(** Where the first code point of [old] does not occur, nothing matches. *)
Lemma replace_from_absent (c : char) (old new body rest : str) :
  ~ In c body ->
  replace_from (c :: old) new 0 (body ++ rest)
  = body ++ replace_from (c :: old) new 0 rest.
Proof.
  induction body as [|b body IH]; intros Hb; [reflexivity|].
  cbn [app replace_from startswith].
  replace (char_eqb c b) with false.
  - cbn [andb]. rewrite IH; [reflexivity|]. intros H. apply Hb. now right.
  - symmetry. apply N.eqb_neq. intros ->. apply Hb. now left.
Qed.

Lemma startswith_srt_fence (body : str) :
  ~ In BACKTICK body ->
  startswith (lit "srt") body = false ->
  startswith (lit "srt") (body ++ FENCE) = false.
Proof.
  intros Hb Hs.
  destruct body as [|a [|b [|c body]]]; cbn [app startswith lit] in *;
    try reflexivity; exact Hs.
Qed.

(** A bare fence is not mistaken for a tagged one. *)
Lemma replace_srt_bare_fence (body : str) :
  ~ In BACKTICK body ->
  startswith (lit "srt") body = false ->
  replace FENCE_SRT [] (FENCE ++ body ++ FENCE) = FENCE ++ body ++ FENCE.
Proof.
  intros Hb Hs.
  pose proof (startswith_srt_fence body Hb Hs) as H0.
  assert (Htail : replace_from FENCE_SRT [] 0 (body ++ FENCE) = body ++ FENCE).
  { unfold FENCE_SRT. cbn [lit]. rewrite replace_from_absent by exact Hb.
    reflexivity. }
  unfold replace. change FENCE_SRT with (BACKTICK :: BACKTICK :: BACKTICK :: lit "srt").
  change FENCE with [BACKTICK; BACKTICK; BACKTICK] at 1 3.
  cbn [app replace_from startswith].
  change (char_eqb BACKTICK BACKTICK) with true. cbn [andb].
  rewrite H0. 
  change (BACKTICK :: BACKTICK :: BACKTICK :: lit "srt") with FENCE_SRT.
  rewrite Htail.
  destruct body as [|a body].
  - reflexivity.
  - cbn [app startswith].
    replace (char_eqb BACKTICK a) with false; [reflexivity|].
    symmetry. apply N.eqb_neq. intros <-. apply Hb. now left.
Qed.

Lemma replace_srt_tagged_fence (body : str) :
  ~ In BACKTICK body ->
  replace FENCE_SRT [] (FENCE_SRT ++ body ++ FENCE) = body ++ FENCE.
Proof.
  intros Hb. unfold replace, FENCE_SRT. cbn [lit].
  rewrite replace_from_match, replace_from_absent by exact Hb. reflexivity.
Qed.

Lemma replace_fence_closing (body : str) :
  ~ In BACKTICK body ->
  replace FENCE [] (body ++ FENCE) = body.
Proof.
  intros Hb. unfold replace, FENCE. cbn [lit].
  rewrite replace_from_absent by exact Hb.
  cbn. now rewrite app_nil_r.
Qed.

Lemma replace_fence_opening (rest : str) :
  replace FENCE [] (FENCE ++ rest) = replace FENCE [] rest.
Proof.
  unfold replace. change FENCE with (BACKTICK :: [BACKTICK; BACKTICK]).
  now rewrite replace_from_match.
Qed.

Lemma replace_absent (old body : str) :
  hd_error old = Some BACKTICK -> ~ In BACKTICK body ->
  replace old [] body = body.
Proof.
  intros Hold Hb. destruct old as [|c old]; [discriminate|].
  injection Hold as ->. unfold replace.
  rewrite <- (app_nil_r body) at 1. rewrite replace_from_absent by exact Hb.
  cbn. now rewrite app_nil_r.
Qed.

(** *** Cutting occurrences out *)

Lemma startswith_prefix (p s : str) :
  startswith p s = true -> exists rest, s = p ++ rest.
Proof.
  revert s. induction p as [|a p IH]; intros s H.
  - now exists s.
  - destruct s as [|b s]; [discriminate|]. cbn [startswith] in H.
    apply andb_true_iff in H. destruct H as [Hab Hrest].
    apply N.eqb_eq in Hab. subst b.
    destruct (IH s Hrest) as (rest & ->). now exists rest.
Qed.

Lemma startswith_nil_false (old : str) : old <> [] -> startswith old [] = false.
Proof. now destruct old. Qed.

(** [replace old "" s] cuts out the occurrences of [old] and changes
    nothing else. *)
Lemma replace_from_erased (c : char) (old : str) (n : nat) :
  forall s, (length s <= n)%nat ->
    erased (c :: old) s (replace_from (c :: old) [] 0 s).
Proof.
  induction n as [|n IH]; intros s Hn.
  - destruct s; [constructor | simpl in Hn; lia].
  - destruct s as [|d s']; [constructor|].
    destruct (startswith (c :: old) (d :: s')) eqn:Hhead.
    + apply startswith_prefix in Hhead. destruct Hhead as (rest & Hs).
      rewrite Hs, replace_from_match.
      apply (erased_cut (c :: old) rest (replace_from (c :: old) [] 0 rest)), IH.
      apply (f_equal (@length char)) in Hs. rewrite length_app in Hs.
      simpl in Hs, Hn. lia.
    + cbn [replace_from]. rewrite Hhead. apply erased_keep; [exact Hhead|].
      apply IH. simpl in Hn. lia.
Qed.

Lemma replace_erased (old s : str) :
  old <> [] -> erased old s (replace old [] s).
Proof.
  intros Hold. destruct old as [|c old]; [contradiction|].
  unfold replace. apply (replace_from_erased c old (length s)). lia.
Qed.

(** There is one way only to cut the occurrences out. *)
Lemma erased_functional (old s r1 r2 : str) :
  old <> [] -> erased old s r1 -> erased old s r2 -> r1 = r2.
Proof.
  intros Hold H1. revert r2.
  assert (Hnil : forall rest : str, old ++ rest <> []).
  { intros rest H. apply app_eq_nil in H. now destruct H. }
  induction H1 as [|rest r Hrest IH|c s r Hhead Hs IH]; intros r2 H2.
  - remember (@nil char) as s eqn:Es. destruct H2; try reflexivity.
    + now destruct (Hnil rest).
    + discriminate.
  - remember (old ++ rest) as s eqn:Es.
    destruct H2 as [|rest' r' Hrest'|c s r' Hhead Hs].
    + now destruct (Hnil rest).
    + apply app_inv_head in Es. subst rest'. now apply IH.
    + rewrite Es, startswith_app in Hhead. discriminate.
  - remember (c :: s) as cs eqn:Es.
    destruct H2 as [|rest' r' Hrest'|c' s' r' Hhead' Hs'].
    + discriminate.
    + rewrite startswith_app in Hhead. discriminate.
    + injection Es as -> ->. f_equal. now apply IH.
Qed.

(** What the clean-up makes of a text without backticks, and of such a text
    inside one fence. *)
Lemma clean_content_plain (text : str) :
  ~ In BACKTICK text -> clean_content text = strip text.
Proof.
  intros Hb. unfold clean_content.
  assert (Hs : ~ In BACKTICK (strip text)).
  { intros H. apply Hb. now apply strip_incl. }
  rewrite (replace_absent FENCE_SRT), (replace_absent FENCE);
    try reflexivity; try assumption.
  apply strip_idem.
Qed.

Lemma clean_content_fenced (ws1 ws2 tag body : str) :
  spaces ws1 -> spaces ws2 ->
  ~ In BACKTICK body ->
  tag = lit "srt" \/ (tag = [] /\ startswith (lit "srt") body = false) ->
  clean_content (ws1 ++ FENCE ++ tag ++ body ++ FENCE ++ ws2) = strip body.
Proof.
  intros H1 H2 Hb Htag. unfold clean_content.
  assert (Hstrip : strip (ws1 ++ FENCE ++ tag ++ body ++ FENCE ++ ws2)
                   = FENCE ++ tag ++ body ++ FENCE).
  { change FENCE with (BACKTICK :: [BACKTICK; BACKTICK]) at 1 3.
    change FENCE with ([BACKTICK; BACKTICK] ++ [BACKTICK]) at 1 2.
    replace (ws1 ++ (BACKTICK :: [BACKTICK; BACKTICK]) ++ tag ++ body
             ++ ([BACKTICK; BACKTICK] ++ [BACKTICK]) ++ ws2)
      with (ws1 ++ (BACKTICK :: ([BACKTICK; BACKTICK] ++ tag ++ body
                                 ++ [BACKTICK; BACKTICK]) ++ [BACKTICK]) ++ ws2)
      by (cbn [app]; now rewrite <- !app_assoc).
    rewrite strip_around by (assumption || reflexivity).
    cbn [app]. now rewrite <- !app_assoc. }
  rewrite Hstrip.
  destruct Htag as [-> | [-> Hs]].
  - replace (FENCE ++ lit "srt" ++ body ++ FENCE)
      with (FENCE_SRT ++ body ++ FENCE) by reflexivity.
    now rewrite replace_srt_tagged_fence, replace_fence_closing.
  - cbn [app]. rewrite replace_srt_bare_fence by assumption.
    rewrite replace_fence_opening.
    now rewrite replace_fence_closing.
Qed.

End Cleaning.

(** ** The output path *)

Section OutputPath.

Import PurePath.

Lemma rfind_from_app (c : char) (a b : str) :
  forall i found,
    rfind_from c i found (a ++ b)
    = rfind_from c (i + len a) (rfind_from c i found a) b.
Proof.
  induction a as [|d a IH]; intros i found.
  - cbn [app rfind_from]. unfold len. simpl. now rewrite Z.add_0_r.
  - cbn [app rfind_from]. rewrite IH. f_equal.
    unfold len. cbn [length]. lia.
Qed.

Lemma rfind_srt (a : str) : rfind DOT (a ++ lit ".srt") = len a.
Proof.
  unfold rfind. rewrite rfind_from_app. reflexivity.
Qed.

(** The stem of a name that ends in [.srt] is what comes before it. *)
Lemma stem_srt (p : t) (a : str) :
  a <> [] -> name p = a ++ lit ".srt" -> stem p = a.
Proof.
  intros Ha Hname. unfold stem. rewrite Hname, rfind_srt, len_app.
  assert (Hlen : 0 < len a).
  { destruct a; [contradiction|]. unfold len. cbn [length]. lia. }
  replace (0 <? len a) with true by (symmetry; now apply Z.ltb_lt).
  replace (len a <? len a + len (lit ".srt") - 1) with true
    by (symmetry; apply Z.ltb_lt; vm_compute (len (lit ".srt")); lia).
  cbn [andb]. unfold len. rewrite Nat2Z.id.
  rewrite firstn_app, Nat.sub_diag, firstn_all. cbn [firstn].
  now rewrite app_nil_r.
Qed.

(** The output name is never the name of the input. *)
Lemma output_name_differs (p : t) (target_lang : str) :
  name p <> output_name target_lang p.
Proof.
  unfold output_name. intros Hname.
  assert (Hstem : stem p = target_lang ++ lit "." ++ stem p).
  { apply stem_srt.
    - intros H. apply app_eq_nil in H. destruct H as [_ H]. discriminate.
    - rewrite Hname at 1. now rewrite <- !app_assoc. }
  apply (f_equal (@length char)) in Hstem.
  rewrite !length_app in Hstem. cbn [lit length] in Hstem. lia.
Qed.

Lemma output_name_component (p : t) (target_lang : str) :
  well_formed p -> target_lang <> [] -> ~ In SEP target_lang ->
  component (output_name target_lang p).
Proof.
  intros Hwf Hlang Hsep.
  pose proof (stem_no_sep p Hwf) as Hstem.
  unfold output_name. destruct target_lang as [|c lang]; [contradiction|].
  repeat split.
  - discriminate.
  - intros Hin. repeat (apply in_app_or in Hin; destruct Hin as [Hin | Hin]);
      try contradiction; vm_compute in Hin; intuition discriminate.
  - destruct lang; discriminate.
Qed.

(** What [Path] reads back from an output path. *)
Lemma Path_expected_output_path (srt_path target_lang : str) :
  component (output_name target_lang (Path srt_path)) ->
  Path (expected_output_path srt_path target_lang)
  = mk (root (Path srt_path))
       (removelast (tail (Path srt_path))
        ++ [output_name target_lang (Path srt_path)]).
Proof.
  intros Hcomp. apply Path_to_str, with_name_well_formed;
    [apply Path_well_formed | exact Hcomp].
Qed.

Lemma expected_output_path_differs (srt_path target_lang : str) :
  component (output_name target_lang (Path srt_path)) ->
  name (Path (expected_output_path srt_path target_lang))
  <> name (Path srt_path)
  /\ expected_output_path srt_path target_lang <> srt_path.
Proof.
  intros Hcomp.
  assert (Hname : name (Path (expected_output_path srt_path target_lang))
                  <> name (Path srt_path)).
  { rewrite Path_expected_output_path by exact Hcomp.
    unfold name at 1. cbn [tail]. rewrite last_last.
    intros H. now apply (output_name_differs (Path srt_path) target_lang). }
  split; [exact Hname|]. intros Heq. apply Hname. now rewrite Heq.
Qed.

(** Different language codes give different output paths. *)
Lemma expected_output_path_inj (srt_path lang1 lang2 : str) :
  lang1 <> [] -> ~ In SEP lang1 -> lang2 <> [] -> ~ In SEP lang2 ->
  expected_output_path srt_path lang1 = expected_output_path srt_path lang2 ->
  lang1 = lang2.
Proof.
  intros H1 S1 H2 S2 Heq.
  pose proof (Path_well_formed srt_path) as Hwf.
  apply (f_equal Path) in Heq.
  rewrite !Path_expected_output_path in Heq
    by (apply output_name_component; assumption).
  injection Heq as Heq. apply app_inj_tail in Heq. destruct Heq as [_ Heq].
  unfold output_name in Heq. now apply app_inv_tail in Heq.
Qed.

Lemma NoDup_map_on {A B} (f : A -> B) (l : list A) :
  (forall x y, In x l -> In y l -> f x = f y -> x = y) ->
  NoDup l -> NoDup (map f l).
Proof.
  intros Hinj Hnd. induction Hnd as [|x l Hx Hnd IH]; [constructor|].
  cbn [map]. constructor.
  - intros Hin. apply in_map_iff in Hin. destruct Hin as (y & Hfy & Hy).
    assert (y = x) by (apply Hinj; [now right | now left | exact Hfy]).
    subst y. contradiction.
  - apply IH. intros a b Ha Hb. apply Hinj; now right.
Qed.

Lemma all_langs_plain :
  Forall (fun lang => lang <> [] /\ ~ In SEP lang) all_langs.
Proof.
  repeat constructor; try discriminate;
    vm_compute; intuition discriminate.
Qed.

Lemma all_langs_NoDup : NoDup all_langs.
Proof.
  repeat constructor; vm_compute; intuition discriminate.
Qed.

End OutputPath.

(** ** The pipeline *)

Section PipelineFacts.

Context {RS : Type} {os : OS} (remote : RS -> request -> outcome * RS).

Implicit Types (w : world RS) (chunk target_lang srt_path : str).

(** One call of the driver is one request to the service; nothing else in
    the world changes. *)
Lemma translate_chunk_run chunk target_lang w out s' :
  remote (service w) (chunk_request chunk target_lang) = (out, s') ->
  _translate_chunk remote chunk target_lang w
  = (driver_result out,
     mk_world (fs w) s' (trace w ++ [ECall (chunk_request chunk target_lang)])).
Proof.
  intros Hcall. unfold _translate_chunk, bind, create, lift. rewrite Hcall.
  destruct out as [e | response]; simpl; [reflexivity|].
  now destruct (interpret_response response).
Qed.

(** The three ways a turn of the loop can go: the first call succeeds; it
    fails and the second succeeds; both fail. *)
Lemma translate_one_run target_lang n i chunk translated_chunks w :
  let req := chunk_request chunk target_lang in
  let announce := EPrint (MsgTranslatingChunk i n target_lang) in
  let '(out1, s1) := remote (service w) req in
  match driver_result out1 with
  | Ok translated =>
      translate_one remote target_lang n i chunk translated_chunks w
      = (Ok (translated_chunks ++ [translated]),
         mk_world (fs w) s1
           (trace w ++ [announce; ECall req; ESleep SLEEP_BETWEEN_CALLS]))
  | Err e =>
      let '(out2, s2) := remote s1 req in
      match driver_result out2 with
      | Ok translated =>
          translate_one remote target_lang n i chunk translated_chunks w
          = (Ok (translated_chunks ++ [translated]),
             mk_world (fs w) s2
               (trace w ++ [announce; ECall req; EPrint (MsgErrorOnChunk i e);
                            EPrint MsgRetrying; ESleep 5; ECall req;
                            ESleep SLEEP_BETWEEN_CALLS]))
      | Err e2 =>
          translate_one remote target_lang n i chunk translated_chunks w
          = (Err e2,
             mk_world (fs w) s2
               (trace w ++ [announce; ECall req; EPrint (MsgErrorOnChunk i e);
                            EPrint MsgRetrying; ESleep 5; ECall req]))
      end
  end.
Proof.
  intros req announce.
  destruct (remote (service w) req) as [out1 s1] eqn:H1.
  destruct (driver_result out1) as [translated | e] eqn:Hout1.
  - unfold translate_one, bind at 1, print.
    unfold bind at 1, try_except, bind at 1.
    rewrite (translate_chunk_run chunk target_lang _ out1 s1) by exact H1.
    rewrite Hout1.
    unfold ret, bind, sleep, log. simpl. now rewrite <- !app_assoc.
  - destruct (remote s1 req) as [out2 s2] eqn:H2.
    destruct (driver_result out2) as [translated | e2] eqn:Hout2;
      unfold translate_one, bind at 1, print;
      unfold bind at 1, try_except, bind at 1;
      rewrite (translate_chunk_run chunk target_lang _ out1 s1) by exact H1;
      rewrite Hout1;
      unfold bind at 1, print; unfold bind at 1; unfold bind at 1, sleep;
      unfold bind at 1;
      rewrite (translate_chunk_run chunk target_lang _ out2 s2) by exact H2;
      rewrite Hout2; unfold ret, bind, log; simpl; now rewrite <- !app_assoc.
Qed.

(** A turn of the loop leaves the files alone and neither writes nor
    announces a language. *)
Lemma translate_one_effects target_lang n i chunk translated_chunks w :
  exists evs,
    fs (snd (translate_one remote target_lang n i chunk translated_chunks w)) = fs w
    /\ trace (snd (translate_one remote target_lang n i chunk translated_chunks w))
       = trace w ++ evs
    /\ writes evs = [] /\ announced evs = [] /\ opened evs = [].
Proof.
  pose proof (translate_one_run target_lang n i chunk translated_chunks w) as Hrun.
  cbv zeta in Hrun.
  destruct (remote (service w) _) as [out1 s1].
  destruct (driver_result out1).
  - rewrite Hrun. eexists. simpl. repeat split; reflexivity.
  - destruct (remote s1 _) as [out2 s2].
    destruct (driver_result out2); rewrite Hrun; eexists; simpl;
      repeat split; reflexivity.
Qed.

Lemma writes_app (a b : list event) : writes (a ++ b) = writes a ++ writes b.
Proof. unfold writes. apply flat_map_app. Qed.

Lemma announced_app (a b : list event) :
  announced (a ++ b) = announced a ++ announced b.
Proof. unfold announced. apply flat_map_app. Qed.

Lemma opened_app (a b : list event) : opened (a ++ b) = opened a ++ opened b.
Proof. unfold opened. apply flat_map_app. Qed.

Lemma calls_app (a b : list event) : calls (a ++ b) = calls a ++ calls b.
Proof. unfold calls. apply flat_map_app. Qed.

Lemma translate_loop_effects target_lang n chunks :
  forall i translated_chunks w,
  exists evs,
    fs (snd (translate_loop remote target_lang n i chunks translated_chunks w)) = fs w
    /\ trace (snd (translate_loop remote target_lang n i chunks translated_chunks w))
       = trace w ++ evs
    /\ writes evs = [] /\ announced evs = [] /\ opened evs = [].
Proof.
  induction chunks as [|chunk rest IH]; intros i translated_chunks w.
  - exists []. simpl. now rewrite app_nil_r.
  - simpl. unfold bind.
    destruct (translate_one_effects target_lang n i chunk translated_chunks w)
      as (evs1 & Hfs1 & Htr1 & Hw1 & Ha1 & Ho1).
    destruct (translate_one remote target_lang n i chunk translated_chunks w)
      as [[acc | e] w1]; simpl in Hfs1, Htr1.
    + destruct (IH (S i) acc w1) as (evs2 & Hfs2 & Htr2 & Hw2 & Ha2 & Ho2).
      exists (evs1 ++ evs2). rewrite Hfs2, Htr2, Hfs1, Htr1.
      rewrite writes_app, announced_app, opened_app.
      rewrite Hw1, Hw2, Ha1, Ha2, Ho1, Ho2, app_assoc.
      repeat split; reflexivity.
    + exists evs1. simpl. repeat split; assumption.
Qed.

(** The loop over a list in two parts is the loop over the first part and
    then, if that went well, over the second. *)
Lemma translate_loop_app target_lang n pre post :
  forall i translated_chunks w,
    translate_loop remote target_lang n i (pre ++ post) translated_chunks w
    = match translate_loop remote target_lang n i pre translated_chunks w with
      | (Ok acc, w1) =>
          translate_loop remote target_lang n (i + length pre) post acc w1
      | (Err e, w1) => (Err e, w1)
      end.
Proof.
  induction pre as [|chunk pre IH]; intros i translated_chunks w.
  - simpl. now rewrite Nat.add_0_r.
  - simpl. unfold bind.
    destruct (translate_one remote target_lang n i chunk translated_chunks w)
      as [[acc | e] w1]; [|reflexivity].
    rewrite IH. now rewrite Nat.add_succ_r.
Qed.

(** One turn of the loop when the driver fails and then succeeds: two calls,
    the second after a sleep of 5, and the second result appended. *)
Lemma translate_one_retry_succeeds
    target_lang n i chunk translated_chunks w out1 s1 e out2 s2 translated :
  remote (service w) (chunk_request chunk target_lang) = (out1, s1) ->
  driver_result out1 = Err e ->
  remote s1 (chunk_request chunk target_lang) = (out2, s2) ->
  driver_result out2 = Ok translated ->
  exists evs,
    translate_one remote target_lang n i chunk translated_chunks w
    = (Ok (translated_chunks ++ [translated]),
       mk_world (fs w) s2 (trace w ++ evs))
    /\ evs = [EPrint (MsgTranslatingChunk i n target_lang);
              ECall (chunk_request chunk target_lang);
              EPrint (MsgErrorOnChunk i e);
              EPrint MsgRetrying;
              ESleep 5;
              ECall (chunk_request chunk target_lang);
              ESleep SLEEP_BETWEEN_CALLS]
    /\ calls evs = [chunk_request chunk target_lang;
                    chunk_request chunk target_lang].
Proof.
  intros H1 Hfail H2 Hok. eexists. split; [|split; reflexivity].
  pose proof (translate_one_run target_lang n i chunk translated_chunks w) as Hrun.
  cbv zeta in Hrun.
  rewrite H1 in Hrun. cbv beta iota in Hrun. rewrite Hfail in Hrun.
  rewrite H2 in Hrun. cbv beta iota in Hrun. rewrite Hok in Hrun.
  exact Hrun.
Qed.

(** C8, as amended: of a non-empty response text the driver returns the
    text stripped, with every occurrence of the marker [```srt] and then
    every occurrence of [```] cut out, found from the left and wherever it
    is, nothing else changed, and the result stripped again.  So a text
    without a backtick comes back stripped, and a backtick-free body inside
    one fence, tagged [srt] or bare (the body of a bare fence not starting
    with [srt]), with whitespace around it, comes back as the stripped
    body. *)
Theorem translate_chunk_cleans_response chunk target_lang w s' text :
  remote (service w) (chunk_request chunk target_lang)
  = (Returns (text_response text), s') ->
  text <> [] ->
  (exists t1 t2,
      erased FENCE_SRT (strip text) t1 /\ erased FENCE t1 t2
      /\ fst (_translate_chunk remote chunk target_lang w) = Ok (strip t2))
  /\ (forall t1 t2,
        erased FENCE_SRT (strip text) t1 -> erased FENCE t1 t2 ->
        fst (_translate_chunk remote chunk target_lang w) = Ok (strip t2))
  /\ (~ In BACKTICK text ->
      fst (_translate_chunk remote chunk target_lang w) = Ok (strip text))
  /\ (forall ws1 ws2 tag body,
        text = ws1 ++ FENCE ++ tag ++ body ++ FENCE ++ ws2 ->
        spaces ws1 -> spaces ws2 ->
        ~ In BACKTICK body ->
        tag = lit "srt" \/ (tag = [] /\ startswith (lit "srt") body = false) ->
        fst (_translate_chunk remote chunk target_lang w) = Ok (strip body)).
Proof.
  intros Hcall Htext.
  rewrite (translate_chunk_run chunk target_lang w _ s' Hcall).
  cbn [fst driver_result]. unfold interpret_response, text_response.
  cbn [usable_content choices message content].
  apply truthy_nonempty in Htext. rewrite Htext.
  assert (H1 : erased FENCE_SRT (strip text)
                 (replace FENCE_SRT [] (strip text)))
    by (apply replace_erased; discriminate).
  assert (H2 : erased FENCE (replace FENCE_SRT [] (strip text))
                 (replace FENCE [] (replace FENCE_SRT [] (strip text))))
    by (apply replace_erased; discriminate).
  split; [|split; [|split]].
  - eexists. eexists. split; [exact H1|]. split; [exact H2 | reflexivity].
  - intros t1 t2 Ht1 Ht2.
    assert (t1 = replace FENCE_SRT [] (strip text))
      by (eapply erased_functional; [|exact Ht1|exact H1]; discriminate).
    subst t1.
    assert (t2 = replace FENCE [] (replace FENCE_SRT [] (strip text)))
      by (eapply erased_functional; [|exact Ht2|exact H2]; discriminate).
    subst t2. reflexivity.
  - intros Hb. now rewrite clean_content_plain.
  - intros ws1 ws2 tag body -> Hw1 Hw2 Hb Htag.
    now rewrite clean_content_fenced.
Qed.

(** ** Writing the output *)

(** Where nothing is in the way, the file is opened and written. *)
Lemma write_file_writable (path text : str) w :
  writable path text ->
  _write_file path text w
  = (Ok tt,
     mk_world (fun p => if str_eqb p path || same_file p path
                        then Some text else fs w p)
              (service w)
              (trace w ++ [EOpen path; EWrite path text])).
Proof.
  intros (Hnul & Hopen & Henc & Hwrite). unfold _write_file.
  replace (existsb (char_eqb NUL) path) with false.
  - now rewrite Hopen, Henc, Hwrite.
  - symmetry. apply not_true_is_false. intros H.
    apply existsb_exists in H. destruct H as (c & Hc & Heq).
    apply N.eqb_eq in Heq. subst c. contradiction.
Qed.

(** What writing does to the world, whether it goes well or not: when it
    returns the file holds the text and what is read at the paths that lead
    to other files is as it was; when it raises either nothing has been
    opened and the files are as they were, or the file has been opened and
    holds what was left in it. *)
Lemma write_file_effects (path text : str) w :
  exists evs,
    trace (snd (_write_file path text w)) = trace w ++ evs
    /\ service (snd (_write_file path text w)) = service w
    /\ announced evs = [] /\ calls evs = []
    /\ match fst (_write_file path text w) with
       | Ok _ =>
           writable path text
           /\ evs = [EOpen path; EWrite path text]
           /\ fs (snd (_write_file path text w)) path = Some text
           /\ (forall p, p <> path -> same_file p path = false ->
               fs (snd (_write_file path text w)) p = fs w p)
       | Err _ =>
           writes evs = []
           /\ ((opened evs = [] /\ fs (snd (_write_file path text w)) = fs w)
               \/ (opened evs = [path]
                   /\ exists remains,
                        fs (snd (_write_file path text w)) path = Some remains))
       end.
Proof.
  unfold _write_file, writable.
  destruct (existsb (char_eqb NUL) path) eqn:Hnul.
  { exists []. cbn. rewrite app_nil_r. repeat split; auto. }
  assert (Hnul' : ~ In NUL path).
  { intros Hin. apply not_true_iff_false in Hnul. apply Hnul.
    apply existsb_exists. exists NUL. split; [exact Hin | apply N.eqb_refl]. }
  destruct (open_error path) as [e|] eqn:Hopen.
  { exists []. cbn. rewrite app_nil_r. repeat split; auto. }
  destruct (encodable text) eqn:Henc; cbn [negb].
  - destruct (write_error path text) as [[e remains]|] eqn:Hwrite.
    + exists [EOpen path]. cbn. repeat split. right.
      split; [reflexivity|]. exists remains. now rewrite str_eqb_refl.
    + exists [EOpen path; EWrite path text]. cbn.
      repeat split; auto; [now rewrite str_eqb_refl|].
      intros p Hp Hsame. rewrite Hsame.
      destruct (str_eqb p path) eqn:Heq; [|reflexivity].
      apply str_eqb_eq in Heq. contradiction.
  - exists [EOpen path]. cbn. repeat split. right.
    split; [reflexivity|]. exists []. now rewrite str_eqb_refl.
Qed.

(** ** The single-language pipeline *)

(** [translate] past its guards: the loop in the world left by the reading,
    then the output name, then the writing. *)
Lemma translate_run srt_path target_lang w content :
  fs w srt_path = Some content ->
  truthy target_lang = true ->
  let chunks := _chunk_text (universal_newlines content) MAX_CHARS_PER_CHUNK in
  let w0 := mk_world (fs w) (service w)
              (trace w ++ [EPrint MsgReadingFile; ERead srt_path;
                           EPrint MsgChunking;
                           EPrint (MsgTotalChunks (length chunks))]) in
  translate remote srt_path (Some target_lang) w
  = match translate_loop remote target_lang (length chunks) 1 chunks [] w0 with
    | (Err e, w1) => (Err e, w1)
    | (Ok translated_chunks, w1) =>
        let input_path := PurePath.Path srt_path in
        match PurePath.with_name input_path (output_name target_lang input_path) with
        | Err e => (Err e, log (EPrint MsgRebuilding) w1)
        | Ok output =>
            let output_path := PurePath.to_str output in
            let final_text := join [LF] (map strip translated_chunks) in
            match _write_file output_path final_text
                    (log (EPrint MsgRebuilding) w1) with
            | (Err e, w2) => (Err e, w2)
            | (Ok _, w2) => (Ok output_path, log (EPrint (MsgDone output_path)) w2)
            end
        end
    end.
Proof.
  intros Hfile Hlang chunks w0.
  unfold translate, bind at 1, path_exists. rewrite Hfile. cbn [negb].
  rewrite Hlang. cbn [negb].
  unfold bind at 1, print. unfold bind at 1, _read_file. cbn [log fs].
  rewrite Hfile. unfold bind at 1. unfold bind at 1. unfold bind at 1.
  fold chunks.
  match goal with
  | |- context [translate_loop _ _ _ _ _ _ ?w1] =>
      replace w1 with w0
        by (unfold w0, log; cbn [fs service trace]; now rewrite <- !app_assoc)
  end.
  destruct (translate_loop remote target_lang (length chunks) 1 chunks [] w0)
    as [[translated_chunks | e] w1]; [|reflexivity].
  unfold bind at 1, print. unfold bind at 1, lift.
  destruct (PurePath.with_name _ _) as [output | e]; [|reflexivity].
  unfold bind at 1.
  destruct (_write_file _ _ _) as [[[] | e] w2]; reflexivity.
Qed.

(** The two guards of [translate], in the order they are checked. *)
Lemma translate_guards srt_path (target_lang : option str) w :
  fs w srt_path = None \/ target_lang = None \/ target_lang = Some [] ->
  translate remote srt_path target_lang w
  = (Err (match fs w srt_path with
          | None => FileNotFoundError srt_path
          | Some _ => ValueError TargetLangRequired
          end), w).
Proof.
  intros H. unfold translate, bind, path_exists, raise.
  destruct (fs w srt_path) as [content|]; cbn [negb]; [|reflexivity].
  destruct H as [H | [-> | ->]]; [discriminate | reflexivity | reflexivity].
Qed.

(** C6: a missing input path fails with [FileNotFoundError]; an absent or
    empty language code fails with [ValueError], once the path has been
    found to exist; in both cases the world is left as it was, nothing read
    and nothing called. *)
Theorem translate_preconditions srt_path (target_lang : option str) w :
  fs w srt_path = None \/ target_lang = None \/ target_lang = Some [] ->
  translate remote srt_path target_lang w
  = (Err (match fs w srt_path with
          | None => FileNotFoundError srt_path
          | Some _ => ValueError TargetLangRequired
          end), w).
Proof. apply translate_guards. Qed.

(** C5: when the chunks before a chunk have been translated and the driver
    fails on that chunk twice, [translate] ends with the second error; no
    file is written and the files are as they were. *)
Theorem translate_fails_after_retry
    srt_path target_lang w content pre chunk post translated_chunks w1
    out1 s1 e1 out2 s2 e2 :
  fs w srt_path = Some content ->
  truthy target_lang = true ->
  _chunk_text (universal_newlines content) MAX_CHARS_PER_CHUNK
  = pre ++ chunk :: post ->
  translate_loop remote target_lang (length (pre ++ chunk :: post)) 1 pre []
    (mk_world (fs w) (service w)
       (trace w ++ [EPrint MsgReadingFile; ERead srt_path; EPrint MsgChunking;
                    EPrint (MsgTotalChunks (length (pre ++ chunk :: post)))]))
  = (Ok translated_chunks, w1) ->
  remote (service w1) (chunk_request chunk target_lang) = (out1, s1) ->
  driver_result out1 = Err e1 ->
  remote s1 (chunk_request chunk target_lang) = (out2, s2) ->
  driver_result out2 = Err e2 ->
  exists w' evs,
    translate remote srt_path (Some target_lang) w = (Err e2, w')
    /\ fs w' = fs w
    /\ service w' = s2
    /\ trace w' = trace w ++ evs
    /\ writes evs = [].
Proof.
  intros Hfile Hlang Hchunks Hpre H1 Hout1 H2 Hout2.
  pose proof (translate_run srt_path target_lang w content Hfile Hlang) as Hrun.
  cbv zeta in Hrun. rewrite Hchunks in Hrun.
  rewrite translate_loop_app, Hpre in Hrun.
  cbn [translate_loop] in Hrun. unfold bind at 1 in Hrun.
  pose proof (translate_one_run target_lang (length (pre ++ chunk :: post))
                (1 + length pre) chunk translated_chunks w1) as Hone.
  cbv zeta in Hone.
  rewrite H1 in Hone. cbv beta iota in Hone. rewrite Hout1 in Hone.
  rewrite H2 in Hone. cbv beta iota in Hone. rewrite Hout2 in Hone.
  rewrite Hone in Hrun.
  match type of Hpre with
  | translate_loop _ _ _ _ _ _ ?w0 = _ =>
      pose proof (translate_loop_effects target_lang
                    (length (pre ++ chunk :: post)) pre 1 [] w0)
        as (evs & Hfs & Htr & Hw & _)
  end.
  rewrite Hpre in Hfs, Htr. cbn [snd fs trace] in Hfs, Htr.
  eexists. eexists. split; [exact Hrun|]. cbn [fs service trace].
  split; [exact Hfs|]. split; [reflexivity|].
  rewrite Htr, <- !app_assoc. split; [reflexivity|].
  rewrite !writes_app, Hw. reflexivity.
Qed.

(** The loop appends one translation per chunk. *)
Lemma translate_loop_appends target_lang n chunks :
  forall i translated_chunks w ts w',
    translate_loop remote target_lang n i chunks translated_chunks w = (Ok ts, w') ->
    exists new, ts = translated_chunks ++ new /\ length new = length chunks.
Proof.
  induction chunks as [|chunk rest IH]; intros i translated_chunks w ts w' Hrun.
  - injection Hrun as <- _. exists []. now rewrite app_nil_r.
  - cbn [translate_loop] in Hrun. unfold bind at 1 in Hrun.
    pose proof (translate_one_run target_lang n i chunk translated_chunks w)
      as Hone.
    cbv zeta in Hone.
    destruct (remote (service w) _) as [out1 s1].
    assert (Hstep : forall t w1,
              translate_loop remote target_lang n (S i) rest
                (translated_chunks ++ [t]) w1 = (Ok ts, w') ->
              exists new, ts = translated_chunks ++ new
                          /\ length new = length (chunk :: rest)).
    { intros t w1 H. destruct (IH _ _ _ _ _ H) as (new & -> & Hlen).
      exists (t :: new). rewrite <- app_assoc. split; [reflexivity|].
      cbn [length]. now rewrite Hlen. }
    destruct (driver_result out1) as [t | e1].
    + rewrite Hone in Hrun. now apply (Hstep t _ Hrun).
    + destruct (remote s1 _) as [out2 s2].
      destruct (driver_result out2) as [t | e2]; rewrite Hone in Hrun.
      * now apply (Hstep t _ Hrun).
      * discriminate.
Qed.

(** What a run of [translate] does to the world: it announces no language;
    when it returns, it has opened and written one file, the one it returns
    the path of, and what is read at the paths that lead to other files is
    as it was; when it raises, it has written nothing, and has changed
    nothing unless it raised while writing the output it had opened. *)
Lemma translate_effects srt_path (target_lang : option str) w :
  exists evs,
    trace (snd (translate remote srt_path target_lang w)) = trace w ++ evs
    /\ announced evs = []
    /\ match fst (translate remote srt_path target_lang w) with
       | Ok out =>
           exists lang text,
             target_lang = Some lang
             /\ out = expected_output_path srt_path lang
             /\ writes evs = [(out, text)]
             /\ opened evs = [out]
             /\ fs (snd (translate remote srt_path target_lang w)) out = Some text
             /\ writable out text
             /\ (forall p, p <> out -> same_file p out = false ->
                 fs (snd (translate remote srt_path target_lang w)) p = fs w p)
       | Err _ =>
           writes evs = []
           /\ ((opened evs = []
                /\ fs (snd (translate remote srt_path target_lang w)) = fs w)
               \/ (exists lang remains,
                     target_lang = Some lang
                     /\ opened evs = [expected_output_path srt_path lang]
                     /\ fs (snd (translate remote srt_path target_lang w))
                          (expected_output_path srt_path lang) = Some remains))
       end.
Proof.
  assert (Hpre : fs w srt_path = None \/ target_lang = None
                 \/ target_lang = Some [] ->
                 exists evs,
                   trace (snd (translate remote srt_path target_lang w))
                   = trace w ++ evs
                   /\ announced evs = []
                   /\ match fst (translate remote srt_path target_lang w) with
                      | Ok out => False
                      | Err _ =>
                          writes evs = []
                          /\ opened evs = []
                          /\ fs (snd (translate remote srt_path target_lang w))
                             = fs w
                      end).
  { intros H. rewrite (translate_guards _ _ _ H). exists [].
    simpl. now rewrite app_nil_r. }
  assert (Hguard : fs w srt_path = None \/ target_lang = None
                   \/ target_lang = Some [] ->
                   exists evs,
                     trace (snd (translate remote srt_path target_lang w))
                     = trace w ++ evs
                     /\ announced evs = []
                     /\ match fst (translate remote srt_path target_lang w) with
                        | Ok out =>
                            exists lang text,
                              target_lang = Some lang
                              /\ out = expected_output_path srt_path lang
                              /\ writes evs = [(out, text)]
                              /\ opened evs = [out]
                              /\ fs (snd (translate remote srt_path target_lang w))
                                   out = Some text
                              /\ writable out text
                              /\ (forall p, p <> out -> same_file p out = false ->
                                  fs (snd (translate remote srt_path
                                             target_lang w)) p = fs w p)
                        | Err _ =>
                            writes evs = []
                            /\ ((opened evs = []
                                 /\ fs (snd (translate remote srt_path target_lang w))
                                    = fs w)
                                \/ (exists lang remains,
                                      target_lang = Some lang
                                      /\ opened evs
                                         = [expected_output_path srt_path lang]
                                      /\ fs (snd (translate remote srt_path
                                                    target_lang w))
                                           (expected_output_path srt_path lang)
                                         = Some remains))
                        end).
  { intros H. destruct (Hpre H) as (evs & Htr & Ha & Hres).
    exists evs. split; [exact Htr|]. split; [exact Ha|].
    destruct (fst (translate remote srt_path target_lang w)); [contradiction|].
    destruct Hres as (Hw & Ho & Hfs). auto. }
  destruct (fs w srt_path) as [content|] eqn:Hfile; [|now auto].
  destruct target_lang as [[|c lang]|]; [now auto | | now auto].
  clear Hpre Hguard.
  rewrite (translate_run srt_path (c :: lang) w content Hfile eq_refl).
  cbv zeta.
  set (chunks := _chunk_text (universal_newlines content) MAX_CHARS_PER_CHUNK).
  match goal with
  | |- context [translate_loop _ _ _ _ _ _ ?w0] =>
      pose proof (translate_loop_effects (c :: lang) (length chunks) chunks 1 [] w0)
        as (evs & Hfs & Htr & Hw & Ha & Ho);
      destruct (translate_loop remote (c :: lang) (length chunks) 1 chunks [] w0)
        as [[translated_chunks | e] w1]
  end; cbn [snd fs trace] in Hfs, Htr.
  - destruct (PurePath.with_name _ _) as [output | e] eqn:Hname.
    + apply with_name_ok in Hname. destruct Hname as (_ & _ & ->).
      fold (expected_output_path srt_path (c :: lang)).
      set (out := expected_output_path srt_path (c :: lang)).
      set (final_text := join [LF] (map strip translated_chunks)).
      destruct (write_file_effects out final_text (log (EPrint MsgRebuilding) w1))
        as (evs2 & Htr2 & _ & Ha2 & _ & Hres2).
      destruct (_write_file out final_text (log (EPrint MsgRebuilding) w1))
        as [[[] | e] w2]; cbn [fst snd] in Htr2, Hres2 |- *.
      * destruct Hres2 as (Hable & -> & Hfs2 & Hframe).
        cbn [log trace fs]. rewrite Htr2. cbn [log trace].
        rewrite Htr, <- !app_assoc.
        eexists. split; [reflexivity|].
        rewrite !announced_app, !writes_app, !opened_app, Ha, Hw, Ho.
        split; [reflexivity|].
        exists (c :: lang), final_text.
        split; [reflexivity|]. split; [reflexivity|]. split; [reflexivity|].
        split; [reflexivity|]. split; [exact Hfs2|]. split; [exact Hable|].
        intros p Hp Hsame. rewrite (Hframe p Hp Hsame). cbn [log fs].
        now rewrite Hfs.
      * destruct Hres2 as (Hw2 & Hcase).
        rewrite Htr2. cbn [log trace]. rewrite Htr, <- !app_assoc.
        eexists. split; [reflexivity|].
        rewrite !announced_app, !writes_app, !opened_app, Ha, Ha2, Hw, Hw2, Ho.
        split; [reflexivity|]. split; [reflexivity|]. cbn [app opened flat_map].
        destruct Hcase as [[Ho2 Hfs2] | (Ho2 & remains & Hfs2)].
        -- left. split; [now rewrite Ho2|]. rewrite Hfs2. exact Hfs.
        -- right. exists (c :: lang), remains. rewrite Ho2. auto.
    + cbn [fst snd trace fs log]. rewrite Htr, <- !app_assoc.
      eexists. split; [reflexivity|].
      rewrite !announced_app, !writes_app, !opened_app, Ha, Hw, Ho.
      repeat split. left. split; [reflexivity | exact Hfs].
  - cbn [fst snd trace fs]. rewrite Htr, <- !app_assoc.
    eexists. split; [reflexivity|].
    rewrite !announced_app, !writes_app, !opened_app, Ha, Hw, Ho.
    repeat split. left. split; [reflexivity | exact Hfs].
Qed.

(** C4: when the chunks before a chunk have been translated and the driver
    fails on that chunk and succeeds when called again, [translate] does for
    that chunk one retry: a call, the error and retry messages, a sleep of 5,
    a second call and the pause, two calls in all; the loop goes on with the
    second result appended, and in a run that ends well that result is the
    piece of the written text for that chunk. *)
Theorem translate_retries_once
    srt_path target_lang w content pre chunk post translated_chunks w1
    out1 s1 e out2 s2 translated :
  fs w srt_path = Some content ->
  truthy target_lang = true ->
  _chunk_text (universal_newlines content) MAX_CHARS_PER_CHUNK
  = pre ++ chunk :: post ->
  translate_loop remote target_lang (length (pre ++ chunk :: post)) 1 pre []
    (mk_world (fs w) (service w)
       (trace w ++ [EPrint MsgReadingFile; ERead srt_path; EPrint MsgChunking;
                    EPrint (MsgTotalChunks (length (pre ++ chunk :: post)))]))
  = (Ok translated_chunks, w1) ->
  remote (service w1) (chunk_request chunk target_lang) = (out1, s1) ->
  driver_result out1 = Err e ->
  remote s1 (chunk_request chunk target_lang) = (out2, s2) ->
  driver_result out2 = Ok translated ->
  let n := length (pre ++ chunk :: post) in
  let i := S (length pre) in
  let req := chunk_request chunk target_lang in
  exists evs later,
    evs = [EPrint (MsgTranslatingChunk i n target_lang);
           ECall req;
           EPrint (MsgErrorOnChunk i e);
           EPrint MsgRetrying;
           ESleep 5;
           ECall req;
           ESleep SLEEP_BETWEEN_CALLS]
    /\ calls evs = [req; req]
    /\ translate_loop remote target_lang n 1 (pre ++ chunk :: post) []
         (mk_world (fs w) (service w)
            (trace w ++ [EPrint MsgReadingFile; ERead srt_path;
                         EPrint MsgChunking; EPrint (MsgTotalChunks n)]))
       = translate_loop remote target_lang n (S i) post
           (translated_chunks ++ [translated])
           (mk_world (fs w1) s2 (trace w1 ++ evs))
    /\ trace (snd (translate remote srt_path (Some target_lang) w))
       = trace w1 ++ evs ++ later
    /\ (forall out,
          fst (translate remote srt_path (Some target_lang) w) = Ok out ->
          exists rest,
            length rest = length post
            /\ writes later
               = [(out, join [LF]
                          (map strip (translated_chunks ++ translated :: rest)))]).
Proof.
  intros Hfile Hlang Hchunks Hpre H1 Hout1 H2 Hout2 n i req.
  exists [EPrint (MsgTranslatingChunk i n target_lang); ECall req;
          EPrint (MsgErrorOnChunk i e); EPrint MsgRetrying; ESleep 5;
          ECall req; ESleep SLEEP_BETWEEN_CALLS].
  pose proof (translate_one_run target_lang n i chunk translated_chunks w1)
    as Hone.
  cbv zeta in Hone. fold req in H1, H2, Hone.
  rewrite H1 in Hone. cbv beta iota in Hone. rewrite Hout1 in Hone.
  rewrite H2 in Hone. cbv beta iota in Hone. rewrite Hout2 in Hone.
  assert (Hloop :
    translate_loop remote target_lang n 1 (pre ++ chunk :: post) []
      (mk_world (fs w) (service w)
         (trace w ++ [EPrint MsgReadingFile; ERead srt_path;
                      EPrint MsgChunking; EPrint (MsgTotalChunks n)]))
    = translate_loop remote target_lang n (S i) post
        (translated_chunks ++ [translated])
        (mk_world (fs w1) s2
           (trace w1 ++ [EPrint (MsgTranslatingChunk i n target_lang);
                         ECall req; EPrint (MsgErrorOnChunk i e);
                         EPrint MsgRetrying; ESleep 5; ECall req;
                         ESleep SLEEP_BETWEEN_CALLS]))).
  { rewrite translate_loop_app. fold n in Hpre. rewrite Hpre.
    cbn [translate_loop]. unfold bind at 1.
    change (1 + length pre)%nat with i. now rewrite Hone. }
  cut (exists later,
         trace (snd (translate remote srt_path (Some target_lang) w))
         = trace w1
           ++ [EPrint (MsgTranslatingChunk i n target_lang); ECall req;
               EPrint (MsgErrorOnChunk i e); EPrint MsgRetrying; ESleep 5;
               ECall req; ESleep SLEEP_BETWEEN_CALLS] ++ later
         /\ (forall out,
               fst (translate remote srt_path (Some target_lang) w) = Ok out ->
               exists rest,
                 length rest = length post
                 /\ writes later
                    = [(out, join [LF]
                               (map strip
                                  (translated_chunks ++ translated :: rest)))])).
  { intros (later & Htrace & Hout). exists later.
    split; [reflexivity|]. split; [reflexivity|]. split; [exact Hloop|].
    split; [exact Htrace | exact Hout]. }
  pose proof (translate_run srt_path target_lang w content Hfile Hlang) as Hrun.
  cbv zeta in Hrun. rewrite Hchunks in Hrun. fold n in Hrun.
  rewrite Hloop in Hrun. clear Hloop.
  match type of Hrun with
  | context [translate_loop _ _ _ ?k ?cs ?acc ?w2] =>
      pose proof (translate_loop_effects target_lang n cs k acc w2)
        as (evs3 & _ & Htr3 & Hw3 & _);
      pose proof (translate_loop_appends target_lang n cs k acc w2) as Happ;
      destruct (translate_loop remote target_lang n k cs acc w2)
        as [[ts | e3] w3]
  end; cbn [snd trace] in Htr3.
  - destruct (Happ ts w3 eq_refl) as (rest & -> & Hlen).
    destruct (PurePath.with_name _ _) as [output | e4].
    + set (out := PurePath.to_str output) in *.
      set (final_text :=
             join [LF] (map strip ((translated_chunks ++ [translated]) ++ rest)))
        in *.
      destruct (write_file_effects out final_text (log (EPrint MsgRebuilding) w3))
        as (evs4 & Htr4 & _ & _ & _ & Hres4).
      destruct (_write_file out final_text (log (EPrint MsgRebuilding) w3))
        as [[[] | e5] w4]; cbn [fst snd] in Htr4, Hres4; rewrite Hrun.
      * destruct Hres4 as (_ & -> & _).
        exists (evs3 ++ [EPrint MsgRebuilding; EOpen out; EWrite out final_text;
                         EPrint (MsgDone out)]).
        cbn [fst snd log trace]. rewrite Htr4. cbn [log trace]. rewrite Htr3.
        split; [now rewrite <- !app_assoc|].
        intros out' [= <-]. exists rest. split; [exact Hlen|].
        rewrite writes_app, Hw3. unfold final_text.
        now rewrite <- app_assoc.
      * exists (evs3 ++ EPrint MsgRebuilding :: evs4).
        cbn [fst snd]. rewrite Htr4. cbn [log trace]. rewrite Htr3.
        split; [now rewrite <- !app_assoc|]. discriminate.
    + rewrite Hrun. exists (evs3 ++ [EPrint MsgRebuilding]).
      cbn [fst snd log trace]. rewrite Htr3.
      split; [now rewrite <- !app_assoc|]. discriminate.
  - rewrite Hrun. exists evs3.
    cbn [fst snd]. rewrite Htr3.
    split; [now rewrite <- !app_assoc|]. discriminate.
Qed.

(** A run that returns has passed both guards and [with_name] has taken
    the output name. *)
Lemma translate_ok_name srt_path (target_lang : option str) w out w' :
  translate remote srt_path target_lang w = (Ok out, w') ->
  exists lang output,
    target_lang = Some lang /\ lang <> []
    /\ PurePath.with_name (PurePath.Path srt_path)
         (output_name lang (PurePath.Path srt_path)) = Ok output
    /\ out = PurePath.to_str output.
Proof.
  intros Hrun.
  destruct (fs w srt_path) as [content|] eqn:Hfile;
    [|rewrite translate_guards in Hrun by auto; discriminate].
  destruct target_lang as [[|c lang]|];
    try (rewrite translate_guards in Hrun by auto; discriminate).
  rewrite (translate_run srt_path (c :: lang) w content Hfile eq_refl) in Hrun.
  cbv zeta in Hrun.
  destruct (translate_loop _ _ _ _ _ _ _) as [[translated_chunks | e] w1];
    [|discriminate].
  destruct (PurePath.with_name _ _) as [output | e] eqn:Hname; [|discriminate].
  destruct (_write_file _ _ _) as [[[] | e] w2]; [|discriminate].
  injection Hrun as <- _. exists (c :: lang), output.
  split; [reflexivity|]. split; [discriminate|]. split; [exact Hname|].
  reflexivity.
Qed.

(** C7, as amended: when [translate] returns, what it returns is the path it
    wrote: the input path with its last component replaced by the language
    code, a dot, the stem of the input name and [.srt].  That path, read
    back, has the parent of the input; its name is the language code, a dot,
    the stem and [.srt] exactly when the language code has no separator in
    it.  For [movie.srt] and [fr] it is [fr.movie.srt]. *)
Theorem translate_output_path srt_path (target_lang : option str) w out w' :
  translate remote srt_path target_lang w = (Ok out, w') ->
  exists lang,
    target_lang = Some lang
    /\ out = expected_output_path srt_path lang
    /\ (exists evs text,
          trace w' = trace w ++ evs /\ writes evs = [(out, text)]
          /\ fs w' out = Some text)
    /\ PurePath.parent (PurePath.Path out)
       = PurePath.parent (PurePath.Path srt_path)
    /\ (PurePath.name (PurePath.Path out)
        = lang ++ lit "." ++ PurePath.stem (PurePath.Path srt_path) ++ lit ".srt"
        <-> ~ In PurePath.SEP lang)
    /\ (srt_path = lit "movie.srt" -> lang = lit "fr" -> out = lit "fr.movie.srt").
Proof.
  intros Hrun.
  destruct (translate_effects srt_path target_lang w) as (evs & Htr & _ & Hres).
  destruct (translate_ok_name srt_path target_lang w out w' Hrun)
    as (lang' & output & Hsome & Hlang & Hname & Hout).
  rewrite Hrun in Htr, Hres. cbn [fst snd] in Htr, Hres.
  destruct Hres as (lang & text & -> & -> & Hw & _ & Hfs & _).
  injection Hsome as <-.
  exists lang. split; [reflexivity|]. split; [reflexivity|].
  split; [exists evs, text; auto|].
  pose proof (Path_with_name _ _ _ (Path_well_formed srt_path) Hname) as Hpath.
  rewrite <- Hout in Hpath.
  destruct (with_name_accepts _ _ _ Hname) as (_ & _ & x & _ & _ & _ & Htail).
  rewrite Htail in Hpath.
  split; [|split].
  - rewrite Hpath. unfold PurePath.parent. cbn [PurePath.root PurePath.tail].
    now rewrite removelast_last.
  - split.
    + intros Heq Hin. apply (name_no_sep (expected_output_path srt_path lang)).
      rewrite Heq. apply in_or_app. now left.
    + intros Hsep.
      rewrite Path_expected_output_path
        by (apply output_name_component;
            [apply Path_well_formed | assumption | assumption]).
      unfold PurePath.name. cbn [PurePath.tail]. now rewrite last_last.
  - intros -> ->. reflexivity.
Qed.


(** ** The batch *)

Lemma for_each_translate_runs file_path (langs : list str) :
  forall w w',
    for_each langs
      (fun lang =>
         bind (print (MsgTranslatingTo lang))
           (fun _ => bind (translate remote file_path (Some lang))
                       (fun _ => ret tt))) w
    = (Ok tt, w') ->
    sequential_runs remote file_path langs w w'
    /\ exists evs,
         trace w' = trace w ++ evs
         /\ announced evs = langs
         /\ map fst (writes evs) = map (expected_output_path file_path) langs.
Proof.
  induction langs as [|lang langs IH]; intros w w' Hrun.
  - simpl in Hrun. injection Hrun as <-. split; [constructor|].
    exists []. now rewrite app_nil_r.
  - cbn [for_each] in Hrun. unfold bind at 1 in Hrun.
    unfold bind at 1, print in Hrun. unfold bind at 1 in Hrun.
    destruct (translate_effects file_path (Some lang)
                (log (EPrint (MsgTranslatingTo lang)) w))
      as (evs1 & Htr1 & Ha1 & Hres1).
    destruct (translate remote file_path (Some lang)
                (log (EPrint (MsgTranslatingTo lang)) w))
      as [[out | e] w1] eqn:Hone; [|discriminate].
    cbn [fst snd] in Htr1, Hres1. unfold ret in Hrun.
    destruct Hres1 as (lang' & text & [= <-] & -> & Hw1 & _).
    destruct (IH w1 w' Hrun) as (Hruns & evs2 & Htr2 & Ha2 & Hw2).
    split; [econstructor; eassumption|].
    exists (EPrint (MsgTranslatingTo lang) :: evs1 ++ evs2).
    rewrite Htr2, Htr1. cbn [log trace]. rewrite <- !app_assoc.
    split; [reflexivity|].
    change (EPrint (MsgTranslatingTo lang) :: evs1 ++ evs2)
      with ([EPrint (MsgTranslatingTo lang)] ++ evs1 ++ evs2).
    rewrite !announced_app, !writes_app, Ha1, Ha2, Hw1, !map_app, Hw2.
    split; reflexivity.
Qed.

(** C9: when no translation fails, [translate_batch] runs [translate] once
    for each of the 21 codes, 15 primary then 6 secondary, from [en] to [nl],
    each run starting where the previous one ended. *)
Theorem translate_batch_all_languages file_path w w' :
  translate_batch remote file_path w = (Ok tt, w') ->
  let codes :=
    map lit ["en"; "es-419"; "es-ES"; "pt-BR"; "pt-PT"; "fr"; "de"; "ar";
             "hi"; "bn"; "ur"; "id"; "vi"; "tr"; "zh-Hans";
             "it"; "ja"; "ko"; "th"; "pl"; "nl"]%string in
  sequential_runs remote file_path codes w w'
  /\ (exists evs,
        trace w' = trace w ++ evs
        /\ announced evs = codes
        /\ map fst (writes evs) = map (expected_output_path file_path) codes)
  /\ length codes = 21%nat
  /\ length languages = 15%nat /\ length secondary_langs = 6%nat
  /\ languages ++ secondary_langs = codes.
Proof.
  intros Hrun codes. unfold translate_batch in Hrun.
  change all_langs with codes in Hrun.
  destruct (for_each_translate_runs file_path codes w w' Hrun) as [Hruns Hevs].
  repeat split; try assumption.
Qed.

End PipelineFacts.

(** ** The program run on small worlds *)

Section SmallWorlds.

(** The runs below are on an operating system that refuses nothing. *)
#[local] Existing Instance plain_os.

Lemma translate_retries_once_witness :
  let w := start (one_file (lit "movie.srt") (lit "1
hello
")) 1%nat in
  let req := chunk_request (lit "1
hello
") (lit "fr") in
  exists evs later,
    evs = [EPrint (MsgTranslatingChunk 1 1 (lit "fr"));
           ECall req;
           EPrint (MsgErrorOnChunk 1 (RemoteCallError (lit "rate limit")));
           EPrint MsgRetrying;
           ESleep 5;
           ECall req;
           ESleep SLEEP_BETWEEN_CALLS]
    /\ calls evs = [req; req]
    /\ translate_loop flaky_remote (lit "fr") 1 1 ([] ++ [lit "1
hello
"]) []
         (mk_world (fs w) (service w)
            (trace w ++ [EPrint MsgReadingFile; ERead (lit "movie.srt");
                         EPrint MsgChunking; EPrint (MsgTotalChunks 1)]))
       = translate_loop flaky_remote (lit "fr") 1 2 []
           ([] ++ [lit "1
hello"])
           (mk_world (fs w) 0%nat
              ([EPrint MsgReadingFile; ERead (lit "movie.srt");
                EPrint MsgChunking; EPrint (MsgTotalChunks 1)] ++ evs))
    /\ trace (snd (translate flaky_remote (lit "movie.srt") (Some (lit "fr")) w))
       = [EPrint MsgReadingFile; ERead (lit "movie.srt");
          EPrint MsgChunking; EPrint (MsgTotalChunks 1)] ++ evs ++ later
    /\ (forall out,
          fst (translate flaky_remote (lit "movie.srt") (Some (lit "fr")) w)
          = Ok out ->
          exists rest,
            length rest = length (@nil str)
            /\ writes later
               = [(out, join [LF] (map strip ([] ++ lit "1
hello" :: rest)))]).
Proof.
  intros w req.
  apply (translate_retries_once flaky_remote (lit "movie.srt") (lit "fr") w
           (lit "1
hello
") [] (lit "1
hello
") [] []
           (mk_world (fs w) (service w)
              [EPrint MsgReadingFile; ERead (lit "movie.srt");
               EPrint MsgChunking; EPrint (MsgTotalChunks 1)])
           (Raises (RemoteCallError (lit "rate limit"))) 0%nat
           (RemoteCallError (lit "rate limit"))
           (Returns (text_response (lit "1
hello
"))) 0%nat (lit "1
hello"));
    reflexivity.
Defined.

Lemma translate_fails_after_retry_witness :
  exists w' evs,
    translate down_remote (lit "movie.srt") (Some (lit "fr"))
      (start (one_file (lit "movie.srt") (lit "1
hello
")) tt)
    = (Err (RemoteCallError (lit "unavailable")), w')
    /\ fs w' = one_file (lit "movie.srt") (lit "1
hello
")
    /\ service w' = tt
    /\ trace w' = [] ++ evs
    /\ writes evs = [].
Proof.
  apply (translate_fails_after_retry down_remote (lit "movie.srt") (lit "fr")
           (start (one_file (lit "movie.srt") (lit "1
hello
")) tt)
           (lit "1
hello
") [] (lit "1
hello
") [] []
           (mk_world (one_file (lit "movie.srt") (lit "1
hello
")) tt
              [EPrint MsgReadingFile; ERead (lit "movie.srt"); EPrint MsgChunking;
               EPrint (MsgTotalChunks 1)])
           (Raises (RemoteCallError (lit "unavailable"))) tt
           (RemoteCallError (lit "unavailable"))
           (Raises (RemoteCallError (lit "unavailable"))) tt
           (RemoteCallError (lit "unavailable")));
    reflexivity.
Defined.

Lemma translate_preconditions_witness :
  translate echo_remote (lit "movie.srt") (Some [])
    (start (one_file (lit "movie.srt") (lit "1")) tt)
  = (Err (ValueError TargetLangRequired),
     start (one_file (lit "movie.srt") (lit "1")) tt).
Proof.
  apply (translate_preconditions echo_remote (lit "movie.srt") (Some [])
           (start (one_file (lit "movie.srt") (lit "1")) tt)).
  right. right. reflexivity.
Defined.

(** C7 (as stated, fails): with the language code [./x] the run returns
    [./x.movie.srt]; the file written is named [x.movie.srt], which is not
    the language code, a dot, the stem and [.srt]. *)
Lemma translate_output_path_dot_slash :
  fst (translate echo_remote (lit "movie.srt") (Some (lit "./x"))
         (start (one_file (lit "movie.srt") (lit "1
hola
")) tt))
  = Ok (lit "./x.movie.srt")
  /\ PurePath.name (PurePath.Path (lit "./x.movie.srt")) = lit "x.movie.srt"
  /\ PurePath.name (PurePath.Path (lit "./x.movie.srt"))
     <> lit "./x" ++ lit "." ++ PurePath.stem (PurePath.Path (lit "movie.srt"))
        ++ lit ".srt".
Proof. split; [reflexivity | split; [reflexivity | discriminate]]. Qed.

Lemma translate_output_path_witness :
  exists lang,
    Some (lit "fr") = Some lang
    /\ lit "dir/fr.movie.tar.srt" = expected_output_path (lit "dir//movie.tar.gz") lang
    /\ (exists evs text,
          trace (snd (translate echo_remote (lit "dir//movie.tar.gz")
                        (Some (lit "fr"))
                        (start (one_file (lit "dir//movie.tar.gz") (lit "1
hola
")) tt)))
          = [] ++ evs
          /\ writes evs = [(lit "dir/fr.movie.tar.srt", text)]
          /\ fs (snd (translate echo_remote (lit "dir//movie.tar.gz")
                        (Some (lit "fr"))
                        (start (one_file (lit "dir//movie.tar.gz") (lit "1
hola
")) tt)))
               (lit "dir/fr.movie.tar.srt") = Some text)
    /\ PurePath.parent (PurePath.Path (lit "dir/fr.movie.tar.srt"))
       = PurePath.parent (PurePath.Path (lit "dir//movie.tar.gz"))
    /\ (PurePath.name (PurePath.Path (lit "dir/fr.movie.tar.srt"))
        = lang ++ lit "." ++ PurePath.stem (PurePath.Path (lit "dir//movie.tar.gz"))
          ++ lit ".srt"
        <-> ~ In PurePath.SEP lang)
    /\ (lit "dir//movie.tar.gz" = lit "movie.srt" -> lang = lit "fr" ->
        lit "dir/fr.movie.tar.srt" = lit "fr.movie.srt").
Proof.
  apply (translate_output_path echo_remote (lit "dir//movie.tar.gz")
           (Some (lit "fr"))
           (start (one_file (lit "dir//movie.tar.gz") (lit "1
hola
")) tt)).
  vm_compute. reflexivity.
Defined.

(** C8 (as stated, fails): a fence tagged [text] keeps its tag, a fence
    inside the text is deleted, and for an empty text the driver raises. *)
Lemma translate_chunk_keeps_other_tag :
  fst (_translate_chunk (canned_remote (lit "```text
hola
```")) (lit "hello") (lit "es") (start (fun _ => None) tt))
  = Ok (lit "text
hola")
  /\ fst (_translate_chunk (canned_remote (lit "```text
hola
```")) (lit "hello") (lit "es") (start (fun _ => None) tt))
     <> Ok (lit "hola")
  /\ fst (_translate_chunk (canned_remote (lit "run ```ls``` now"))
            (lit "hello") (lit "es") (start (fun _ => None) tt))
     = Ok (lit "run ls now")
  /\ fst (_translate_chunk (canned_remote [])
            (lit "hello") (lit "es") (start (fun _ => None) tt))
     = Err (ValueError NoResponseFromOpenAI).
Proof.
  split; [reflexivity | split; [discriminate | split; reflexivity]].
Qed.

Lemma translate_chunk_cleans_response_witness :
  fst (_translate_chunk (canned_remote (lit " ```srt
1
hola
```
")) (lit "hello") (lit "es") (start (fun _ => None) tt))
  = Ok (strip (lit "
1
hola
")).
Proof.
  destruct (translate_chunk_cleans_response (canned_remote (lit " ```srt
1
hola
```
")) (lit "hello") (lit "es") (start (fun _ => None) tt) tt (lit " ```srt
1
hola
```
") eq_refl ltac:(discriminate)) as (_ & _ & _ & Hfenced).
  apply (Hfenced (lit " ") (lit "
") (lit "srt") (lit "
1
hola
")).
  - reflexivity.
  - repeat constructor.
  - repeat constructor.
  - vm_compute. intuition discriminate.
  - left. reflexivity.
Defined.

Lemma translate_batch_all_languages_witness :
  sequential_runs echo_remote (lit "movie.srt")
    (map lit ["en"; "es-419"; "es-ES"; "pt-BR"; "pt-PT"; "fr"; "de"; "ar";
              "hi"; "bn"; "ur"; "id"; "vi"; "tr"; "zh-Hans";
              "it"; "ja"; "ko"; "th"; "pl"; "nl"]%string)
    (start (one_file (lit "movie.srt") (lit "1
hola
")) tt)
    (snd (translate_batch echo_remote (lit "movie.srt")
            (start (one_file (lit "movie.srt") (lit "1
hola
")) tt))).
Proof.
  apply (translate_batch_all_languages echo_remote (lit "movie.srt")
           (start (one_file (lit "movie.srt") (lit "1
hola
")) tt)).
  vm_compute. reflexivity.
Defined.



End SmallWorlds.

(** * Further properties *)

(** ** More on the chunker *)

Section ChunkerMore.

Variable max_chars : Z.

Lemma chunk_text_concat_any (text : str) :
  concat (_chunk_text text max_chars) = text.
Proof.
  unfold _chunk_text.
  pose proof (chunk_loop_concat max_chars (splitlines text) [] []) as H.
  case_chunk_loop chunks current.
  simpl in H. rewrite splitlines_concat in H.
  destruct (truthy current) eqn:Hcur.
  - rewrite concat_app. simpl. now rewrite app_nil_r.
  - destruct current; [|discriminate]. now rewrite app_nil_r in H.
Qed.

(** Chunks already flushed stay in front. *)
Lemma chunk_loop_prefix (lines : list str) :
  forall (pre chunks : list str) (current : str),
    chunk_loop max_chars lines (pre ++ chunks, current)
    = (pre ++ fst (chunk_loop max_chars lines (chunks, current)),
       snd (chunk_loop max_chars lines (chunks, current))).
Proof.
  induction lines as [|line lines IH]; intros pre chunks current.
  - reflexivity.
  - rewrite !chunk_loop_cons. unfold chunk_step.
    destruct (len current + len line >? max_chars).
    + rewrite <- app_assoc. apply IH.
    + apply IH.
Qed.

(** While everything still fits, nothing is flushed. *)
Lemma chunk_loop_all_fit (lines : list str) :
  forall (chunks : list str) (current : str),
    len current + len (concat lines) <= max_chars ->
    chunk_loop max_chars lines (chunks, current)
    = (chunks, current ++ concat lines).
Proof.
  induction lines as [|line lines IH]; intros chunks current Hfit.
  - simpl. now rewrite app_nil_r.
  - rewrite chunk_loop_cons. unfold chunk_step.
    simpl in Hfit. rewrite len_app in Hfit.
    pose proof (len_nonneg (concat lines)).
    replace (len current + len line >? max_chars) with false
      by (symmetry; rewrite Z.gtb_ltb; apply Z.ltb_ge; lia).
    rewrite IH.
    + simpl. now rewrite <- app_assoc.
    + rewrite len_app. lia.
Qed.

(** With a budget below one, every line is flushed as soon as the next one
    comes. *)
Lemma chunk_loop_no_budget (lines : list str) :
  max_chars <= 0 ->
  Forall (fun line => line <> []) lines ->
  forall (chunks : list str) (current line : str),
    line <> [] ->
    chunk_loop max_chars (line :: lines) (chunks, current)
    = (chunks ++ current :: removelast (line :: lines), last (line :: lines) []).
Proof.
  intros Hmax. induction 1 as [|next lines Hnext _ IH]; intros chunks current line Hline.
  - rewrite chunk_loop_cons. unfold chunk_step.
    replace (len current + len line >? max_chars) with true.
    + reflexivity.
    + symmetry. rewrite Z.gtb_ltb. apply Z.ltb_lt.
      pose proof (len_nonneg current). destruct line; [contradiction|].
      unfold len at 2. simpl length. lia.
  - rewrite chunk_loop_cons. unfold chunk_step.
    replace (len current + len line >? max_chars) with true.
    + unfold str in *. rewrite IH by exact Hnext.
      rewrite <- app_assoc. reflexivity.
    + symmetry. rewrite Z.gtb_ltb. apply Z.ltb_lt.
      pose proof (len_nonneg current). destruct line; [contradiction|].
      unfold len at 2. simpl length. lia.
Qed.

End ChunkerMore.

Lemma Forall_tl {A} (P : A -> Prop) (l : list A) :
  Forall P l -> Forall P (tl l).
Proof. destruct 1; [constructor | assumption]. Qed.

(** X1: the chunker returns no chunk exactly for the empty text, whatever
    the budget. *)
Theorem chunk_text_nil_iff (text : str) (max_chars : Z) :
  _chunk_text text max_chars = [] <-> text = [].
Proof.
  split.
  - intros H. rewrite <- (chunk_text_concat_any max_chars text), H. reflexivity.
  - intros ->. reflexivity.
Qed.

(** X2: a non-empty text that fits the budget as a whole is returned as one
    chunk, the text itself. *)
Theorem chunk_text_single_chunk (text : str) (max_chars : Z) :
  text <> [] -> len text <= max_chars ->
  _chunk_text text max_chars = [text].
Proof.
  intros Hne Hfit. unfold _chunk_text.
  rewrite chunk_loop_all_fit.
  - simpl. rewrite splitlines_concat.
    apply truthy_nonempty in Hne. now rewrite Hne.
  - rewrite splitlines_concat. unfold len at 1. simpl. lia.
Qed.

Lemma chunk_text_single_chunk_witness :
  _chunk_text (lit "1
hello
") 4500 = [lit "1
hello
"].
Proof.
  apply chunk_text_single_chunk; [discriminate | vm_compute; discriminate].
Defined.

(** X3: with a budget that is not negative, only the first chunk can be
    empty, and it is empty exactly when the first line is longer than the
    budget. *)
Theorem chunk_text_empty_chunk_iff (text : str) (max_chars : Z) :
  0 <= max_chars ->
  Forall (fun chunk => chunk <> []) (tl (_chunk_text text max_chars))
  /\ (In [] (_chunk_text text max_chars)
      <-> max_chars < len (hd [] (splitlines text))).
Proof.
  intros Hmax. unfold _chunk_text.
  pose proof (splitlines_nonempty text) as Hne.
  destruct (splitlines text) as [|line lines]; cbn [hd].
  - simpl. split; [constructor|]. unfold len. simpl. split; [intros [] | lia].
  - inversion Hne as [|? ? Hline Hlines]; subst.
    rewrite chunk_loop_cons. unfold chunk_step.
    change (len [] + len line) with (len line).
    destruct (len line >? max_chars) eqn:Hcmp; rewrite Z.gtb_ltb in Hcmp.
    + apply Z.ltb_lt in Hcmp.
      change ([] ++ [[]]) with ([@nil char] ++ @nil str).
      rewrite chunk_loop_prefix.
      pose proof (chunk_loop_nonempty max_chars lines Hlines [] ([] ++ line)
                    (Forall_nil _) Hline) as [Hcs Hc].
      case_chunk_loop chunks current.
      cbn [fst snd] in *.
      apply truthy_nonempty in Hc. rewrite Hc. cbn [app tl].
      split.
      * apply Forall_app. split; [assumption|].
        constructor; [now apply truthy_nonempty | constructor].
      * split; [intros _; exact Hcmp | intros _; now left].
    + apply Z.ltb_ge in Hcmp.
      pose proof (chunk_loop_nonempty max_chars lines Hlines [] ([] ++ line)
                    (Forall_nil _) Hline) as [Hcs Hc].
      case_chunk_loop chunks current.
      cbn [fst snd] in *.
      apply truthy_nonempty in Hc. rewrite Hc.
      assert (Hall : Forall (fun chunk : str => chunk <> []) (chunks ++ [current])).
      { apply Forall_app. split; [assumption|].
        constructor; [now apply truthy_nonempty | constructor]. }
      split.
      * now apply Forall_tl.
      * split; [|lia]. intros Hin. rewrite Forall_forall in Hall.
        now destruct (Hall [] Hin).
Qed.

Lemma chunk_text_empty_chunk_iff_witness :
  In [] (_chunk_text (lit "abcdef
ab
") 3).
Proof.
  apply (chunk_text_empty_chunk_iff (lit "abcdef
ab
") 3); [lia | vm_compute; reflexivity].
Defined.

(** X5: with a budget of zero or less, a non-empty text comes back as an
    empty chunk followed by every line as a chunk of its own. *)
Theorem chunk_text_no_budget (text : str) (max_chars : Z) :
  max_chars <= 0 -> text <> [] ->
  _chunk_text text max_chars = [] :: splitlines text.
Proof.
  intros Hmax Htext. unfold _chunk_text.
  pose proof (splitlines_nonempty text) as Hne.
  pose proof (splitlines_concat text) as Hcat.
  destruct (splitlines text) as [|line lines].
  - simpl in Hcat. congruence.
  - inversion Hne as [|? ? Hline Hlines]; subst.
    pose proof (chunk_loop_no_budget max_chars lines Hmax Hlines [] [] line Hline)
      as Hrun.
    unfold str in *. rewrite Hrun.
    assert (Hlast : last (line :: lines) [] <> []).
    { rewrite Forall_forall in Hne. apply Hne.
      rewrite (app_removelast_last (l := line :: lines) [] ltac:(discriminate)) at 2.
      apply in_or_app. right. now left. }
    apply truthy_nonempty in Hlast. rewrite Hlast.
    cbn [app]. f_equal.
    symmetry. apply app_removelast_last. discriminate.
Qed.

Lemma chunk_text_no_budget_witness :
  _chunk_text (lit "ab
c") 0 = [[]; lit "ab
"; lit "c"].
Proof.
  apply (chunk_text_no_budget (lit "ab
c") 0); [lia | discriminate].
Defined.

Section Packing.

Variable max_chars : Z.

Lemma packed_snoc (gs : list (list str)) (g next : list str) :
  packed max_chars (gs ++ [g]) ->
  max_chars < len (concat g) + len (hd [] next) ->
  packed max_chars ((gs ++ [g]) ++ [next]).
Proof.
  intros Hp Hlast. induction gs as [|x gs IH].
  - simpl. auto.
  - cbn [app packed] in Hp |- *. destruct Hp as [Hx Hrest].
    split; [|now apply IH].
    destruct gs; exact Hx.
Qed.

Lemma packed_extend (gs : list (list str)) (g more : list str) :
  g <> [] ->
  packed max_chars (gs ++ [g]) ->
  packed max_chars (gs ++ [g ++ more]).
Proof.
  intros Hg Hp. induction gs as [|x gs IH].
  - simpl. auto.
  - cbn [app packed] in Hp |- *. destruct Hp as [Hx Hrest].
    split; [|now apply IH].
    destruct gs as [|y gs]; [|exact Hx].
    cbn [app] in Hx |- *. destruct g; [contradiction | exact Hx].
Qed.

(** The loop flushes only when it has to: its groups stay packed. *)
Lemma chunk_loop_packed (lines : list str) :
  forall gs g,
    packed max_chars (gs ++ [g]) -> (g = [] -> gs = []) ->
    exists gs' g',
      chunk_loop max_chars lines (map (@concat char) gs, concat g)
      = (map (@concat char) gs', concat g')
      /\ concat (gs' ++ [g']) = concat (gs ++ [g]) ++ lines
      /\ packed max_chars (gs' ++ [g'])
      /\ (g' = [] -> gs' = []).
Proof.
  induction lines as [|line lines IH]; intros gs g Hp Hg.
  - exists gs, g. simpl. now rewrite app_nil_r.
  - rewrite chunk_loop_cons. unfold chunk_step.
    destruct (len (concat g) + len line >? max_chars) eqn:Hcmp.
    + destruct (IH (gs ++ [g]) [line]) as (gs' & g' & Hrun & Hcat & Hp' & Hg').
      * apply packed_snoc; [assumption|]. cbn [hd].
        rewrite Z.gtb_ltb in Hcmp. now apply Z.ltb_lt in Hcmp.
      * discriminate.
      * exists gs', g'. repeat split; try assumption.
        -- rewrite <- Hrun. rewrite map_app. simpl. now rewrite app_nil_r.
        -- rewrite Hcat. rewrite !concat_app. simpl.
           now rewrite !app_nil_r, <- !app_assoc.
    + destruct (IH gs (g ++ [line])) as (gs' & g' & Hrun & Hcat & Hp' & Hg').
      * destruct g as [|l g].
        -- rewrite (Hg eq_refl). simpl. auto.
        -- apply packed_extend; [discriminate | assumption].
      * intros H. apply app_eq_nil in H. now destruct H.
      * exists gs', g'. repeat split; try assumption.
        -- rewrite <- Hrun. rewrite concat_app. simpl. now rewrite app_nil_r.
        -- rewrite Hcat. rewrite !concat_app. simpl.
           now rewrite !app_nil_r, <- !app_assoc.
Qed.

Lemma packed_removelast (gs : list (list str)) (g : list str) :
  packed max_chars (gs ++ [g]) -> packed max_chars gs.
Proof.
  induction gs as [|x gs IH]; [simpl; auto|].
  cbn [app packed]. intros [Hx Hrest]. split; [|now apply IH].
  destruct gs; [exact I | exact Hx].
Qed.

End Packing.

(** X4: the chunker packs greedily: the chunks are the texts of groups of
    whole consecutive lines, and no group could have taken the first line of
    the next group without exceeding the budget. *)
Theorem chunk_text_packed (text : str) (max_chars : Z) :
  exists groups,
    concat groups = splitlines text
    /\ map (@concat char) groups = _chunk_text text max_chars
    /\ packed max_chars groups.
Proof.
  unfold _chunk_text.
  destruct (chunk_loop_packed max_chars (splitlines text) [] [])
    as (gs & g & Hrun & Hcat & Hp & Hg).
  - simpl. auto.
  - reflexivity.
  - change (chunk_loop max_chars (splitlines text) ([], [])
            = (map (@concat char) gs, concat g)) in Hrun.
    simpl in Hcat. rewrite Hrun.
    destruct (truthy (concat g)) eqn:Hcur.
    + exists (gs ++ [g]). repeat split.
      * exact Hcat.
      * now rewrite map_app.
      * exact Hp.
    + assert (Hg0 : g = []).
      { apply concat_nil_nonempty.
        - pose proof (splitlines_nonempty text) as Hne.
          rewrite <- Hcat, concat_app in Hne.
          apply Forall_app in Hne. destruct Hne as [_ Hne].
          simpl in Hne. now rewrite app_nil_r in Hne.
        - destruct (concat g); [reflexivity | discriminate]. }
      subst g. exists gs. repeat split.
      * rewrite <- Hcat, concat_app. simpl. now rewrite app_nil_r.
      * now apply packed_removelast in Hp.
Qed.

(** ** More on the clean-up of a response *)

Section FenceFree.

Lemma startswith_fence_backticks (s : str) :
  startswith FENCE s = false -> (backticks s < 3)%nat.
Proof.
  unfold FENCE. cbn [lit].
  change (N_of_ascii "`") with BACKTICK.
  destruct s as [|a [|b [|c s]]]; cbn [startswith backticks]; try (intros; lia).
  - destruct (char_eqb a BACKTICK); lia.
  - unfold char_eqb. rewrite (N.eqb_sym BACKTICK a), (N.eqb_sym BACKTICK b).
    destruct (N.eqb a BACKTICK), (N.eqb b BACKTICK); lia.
  - unfold char_eqb.
    rewrite (N.eqb_sym BACKTICK a), (N.eqb_sym BACKTICK b), (N.eqb_sym BACKTICK c).
    destruct (N.eqb a BACKTICK), (N.eqb b BACKTICK), (N.eqb c BACKTICK);
      cbn [andb]; intros; try lia; discriminate.
Qed.

(** Removing the fences from the left leaves fewer backticks in front, and
    never three in a row anywhere. *)
Lemma remove_fences_bounded (n : nat) :
  forall s, (length s <= n)%nat ->
    (backticks (replace_from FENCE [] 0 s) <= backticks s)%nat
    /\ fence_free (replace_from FENCE [] 0 s).
Proof.
  induction n as [|n IH]; intros s Hn.
  - destruct s; [simpl; auto | simpl in Hn; lia].
  - destruct s as [|c s']; [simpl; auto|].
    destruct (startswith FENCE (c :: s')) eqn:Hhead.
    + apply startswith_prefix in Hhead. destruct Hhead as (rest & Hs).
      rewrite Hs. change FENCE with (BACKTICK :: [BACKTICK; BACKTICK]).
      rewrite replace_from_match. cbn [app].
      assert (Hlen : (length rest <= n)%nat).
      { apply (f_equal (@length char)) in Hs. rewrite length_app in Hs.
        simpl in Hs, Hn. lia. }
      destruct (IH rest Hlen) as [Hb Hf]. split; [|exact Hf].
      cbn [backticks]. change (char_eqb BACKTICK BACKTICK) with true.
      cbv iota. change [BACKTICK; BACKTICK; BACKTICK] with FENCE. lia.
    + pose proof (startswith_fence_backticks _ Hhead) as Hlead.
      cbn [replace_from]. rewrite Hhead.
      assert (Hlen : (length s' <= n)%nat) by (simpl in Hn; lia).
      destruct (IH s' Hlen) as [Hb Hf].
      assert (Hle : (backticks (c :: replace_from FENCE [] 0 s')
                     <= backticks (c :: s'))%nat).
      { cbn [backticks]. destruct (char_eqb c BACKTICK); lia. }
      split; [exact Hle|]. cbn [fence_free]. split; [lia | exact Hf].
Qed.

Lemma replace_fence_free (s : str) : fence_free (replace FENCE [] s).
Proof.
  unfold replace. change FENCE with (BACKTICK :: [BACKTICK; BACKTICK]) at 1.
  cbv iota. change (BACKTICK :: [BACKTICK; BACKTICK]) with FENCE.
  apply (remove_fences_bounded (length s)). lia.
Qed.

Lemma fence_free_suffix (a b : str) : fence_free (a ++ b) -> fence_free b.
Proof.
  induction a as [|c a IH]; [auto|]. cbn [app fence_free]. intros [_ H]. auto.
Qed.

Lemma backticks_app (a b : str) : (backticks a <= backticks (a ++ b))%nat.
Proof.
  induction a as [|c a IH]; cbn [app backticks]; [lia|].
  destruct (char_eqb c BACKTICK); lia.
Qed.

Lemma fence_free_prefix (a b : str) : fence_free (a ++ b) -> fence_free a.
Proof.
  induction a as [|c a IH]; [simpl; auto|].
  intros [Hlead Hrest]. split; [|now apply IH].
  pose proof (backticks_app (c :: a) b) as H. cbn [app] in H. lia.
Qed.

Lemma lstrip_suffix (s : str) : exists ws, s = ws ++ lstrip s.
Proof.
  induction s as [|c s (ws & IH)]; [now exists []|].
  cbn [lstrip]. destruct (is_space c).
  - exists (c :: ws). cbn [app]. now f_equal.
  - now exists [].
Qed.

Lemma strip_fence_free (s : str) : fence_free s -> fence_free (strip s).
Proof.
  intros H. unfold strip.
  destruct (lstrip_suffix s) as (ws & Hs).
  rewrite Hs in H. apply fence_free_suffix in H.
  destruct (lstrip_suffix (rev (lstrip s))) as (ws' & Hr).
  apply (f_equal (@rev char)) in Hr.
  rewrite rev_involutive, rev_app_distr in Hr. fold (rstrip (lstrip s)) in Hr.
  rewrite Hr in H. now apply fence_free_prefix in H.
Qed.

Lemma fence_free_no_fence (s a b : str) :
  fence_free s -> s <> a ++ FENCE ++ b.
Proof.
  intros H ->. apply fence_free_suffix in H.
  destruct H as [Hlead _]. vm_compute in Hlead. lia.
Qed.

Lemma clean_content_fence_free (text : str) : fence_free (clean_content text).
Proof. unfold clean_content. apply strip_fence_free, replace_fence_free. Qed.

End FenceFree.

Section DriverMore.

Context {RS : Type} {os : OS} (remote : RS -> request -> outcome * RS).

Implicit Types (w : world RS) (chunk target_lang : str).

(** What the driver returns is always a cleaned response text. *)
Lemma translate_chunk_ok_inv chunk target_lang w translated :
  fst (_translate_chunk remote chunk target_lang w) = Ok translated ->
  exists text, text <> [] /\ translated = clean_content text.
Proof.
  destruct (remote (service w) (chunk_request chunk target_lang))
    as [out s'] eqn:Hcall.
  rewrite (translate_chunk_run remote chunk target_lang w out s' Hcall).
  cbn [fst]. destruct out as [e | response]; cbn [driver_result]; [discriminate|].
  unfold interpret_response.
  destruct (usable_content response) as [text|] eqn:Hu; [|discriminate].
  intros [= <-]. exists text. split; [|reflexivity].
  unfold usable_content in Hu.
  destruct response as [[[|[[[[text'|]]|]] rest]]|]; try discriminate.
  cbn in Hu. destruct (truthy text') eqn:Ht; [|discriminate].
  injection Hu as <-. now apply truthy_nonempty.
Qed.

(** X6: whatever the service answers, a text the driver returns contains no
    three backticks in a row and has no whitespace at either end. *)
Theorem translate_chunk_result_clean chunk target_lang w translated :
  fst (_translate_chunk remote chunk target_lang w) = Ok translated ->
  (forall a b, translated <> a ++ FENCE ++ b)
  /\ strip translated = translated.
Proof.
  intros Hok.
  destruct (translate_chunk_ok_inv chunk target_lang w translated Hok)
    as (text & _ & ->).
  split.
  - intros a b. apply fence_free_no_fence, clean_content_fence_free.
  - unfold clean_content. apply strip_idem.
Qed.

(** X7: the driver fails with "No response" exactly when the response is
    missing, has no choice, or its first choice has no message, no text or
    an empty text; otherwise it returns the cleaned text of the first
    choice, whatever the other choices are. *)
Theorem translate_chunk_no_response chunk target_lang w response s' :
  remote (service w) (chunk_request chunk target_lang) = (Returns response, s') ->
  (fst (_translate_chunk remote chunk target_lang w)
   = Err (ValueError NoResponseFromOpenAI)
   <-> response = None
       \/ (exists c, response = Some c /\ choices c = [])
       \/ (exists c first rest,
             response = Some c /\ choices c = first :: rest
             /\ (message first = None
                 \/ message first = Some (mk_message None)
                 \/ message first = Some (mk_message (Some [])))))
  /\ (forall text rest,
        response = Some (mk_completion
                           (mk_choice (Some (mk_message (Some text))) :: rest)) ->
        text <> [] ->
        fst (_translate_chunk remote chunk target_lang w)
        = Ok (clean_content text)).
Proof.
  intros Hcall.
  rewrite (translate_chunk_run remote chunk target_lang w _ s' Hcall).
  cbn [fst driver_result]. unfold interpret_response. split.
  - destruct response as [[[|[[[[[|x text]|]]|]] rest]]|];
      cbn [usable_content choices message content truthy].
    + split; [intros _ | reflexivity]. right. left. eexists. split; reflexivity.
    + split; [intros _ | reflexivity]. right. right.
      eexists. eexists. eexists. split; [reflexivity|]. split; [reflexivity|].
      cbn. auto.
    + split; [discriminate|].
      intros [H | [(c & [= <-] & H) | (c & first & rest' & [= <-] & [= <- <-] & H)]];
        try discriminate.
      cbn in H. destruct H as [H | [H | H]]; discriminate.
    + split; [intros _ | reflexivity]. right. right.
      eexists. eexists. eexists. split; [reflexivity|]. split; [reflexivity|].
      cbn. auto.
    + split; [intros _ | reflexivity]. right. right.
      eexists. eexists. eexists. split; [reflexivity|]. split; [reflexivity|].
      cbn. auto.
    + split; [intros _ | reflexivity]. now left.
  - intros text rest -> Htext. cbn [usable_content choices message content].
    apply truthy_nonempty in Htext. now rewrite Htext.
Qed.

End DriverMore.

Lemma translate_chunk_result_clean_witness :
  (forall a b, lit "text
hola" <> a ++ FENCE ++ b)
  /\ strip (lit "text
hola") = lit "text
hola".
Proof.
  apply (translate_chunk_result_clean (canned_remote (lit "```text
hola
```")) (lit "hello") (lit "es") (start (fun _ => None) tt)).
  reflexivity.
Defined.

Lemma translate_chunk_no_response_witness :
  fst (_translate_chunk (canned_remote []) (lit "hello") (lit "es")
         (start (fun _ => None) tt))
  = Err (ValueError NoResponseFromOpenAI).
Proof.
  apply (translate_chunk_no_response (canned_remote []) (lit "hello") (lit "es")
           (start (fun _ => None) tt) (text_response []) tt eq_refl).
  right. right. eexists. eexists. eexists.
  split; [reflexivity|]. split; [reflexivity|]. right. right. reflexivity.
Defined.

(** ** More on the retry and the loop *)

Section RetryMore.

Context {RS : Type} {os : OS} (remote : RS -> request -> outcome * RS).

Implicit Types (w : world RS) (chunk target_lang srt_path : str).

(** X8: a turn of the loop calls the driver once or twice, always with the
    same request, and touches no file; when it succeeds it has appended one
    translation and ends with the pause between calls; when it fails it has
    called twice and has not paused. *)
Theorem translate_one_at_most_two_calls
    target_lang n i chunk translated_chunks w :
  let run := translate_one remote target_lang n i chunk translated_chunks w in
  let req := chunk_request chunk target_lang in
  exists evs,
    fs (snd run) = fs w
    /\ trace (snd run) = trace w ++ evs
    /\ (calls evs = [req] \/ calls evs = [req; req])
    /\ match fst run with
       | Ok translated_chunks' =>
           (exists translated,
              translated_chunks' = translated_chunks ++ [translated])
           /\ last evs (EPrint MsgRetrying) = ESleep SLEEP_BETWEEN_CALLS
       | Err _ =>
           calls evs = [req; req]
           /\ ~ In (ESleep SLEEP_BETWEEN_CALLS) evs
       end.
Proof.
  intros run req. subst run req.
  pose proof (translate_one_run remote target_lang n i chunk translated_chunks w)
    as Hrun.
  cbv zeta in Hrun.
  destruct (remote (service w) _) as [out1 s1].
  destruct (driver_result out1) as [t | e1].
  - rewrite Hrun. eexists. cbn [fst snd fs trace].
    split; [reflexivity|]. split; [reflexivity|].
    split; [left; reflexivity|]. split; [now exists t | reflexivity].
  - destruct (remote s1 _) as [out2 s2].
    destruct (driver_result out2) as [t | e2]; rewrite Hrun; eexists;
      cbn [fst snd fs trace];
      (split; [reflexivity|]); (split; [reflexivity|]);
      (split; [right; reflexivity|]).
    + split; [now exists t | reflexivity].
    + split; [reflexivity|].
      cbn [In]. intros H.
      repeat (destruct H as [H | H]; [discriminate H|]). exact H.
Qed.


(** Only a run that got past both guards can return. *)
Lemma translate_ok_inv srt_path (target_lang : option str) w out w' :
  translate remote srt_path target_lang w = (Ok out, w') ->
  exists content lang,
    fs w srt_path = Some content /\ target_lang = Some lang
    /\ truthy lang = true.
Proof.
  intros Hrun.
  destruct (fs w srt_path) as [content|] eqn:Hfile.
  2:{ rewrite (translate_guards remote srt_path target_lang w) in Hrun
        by (now left).
      discriminate. }
  destruct target_lang as [[|c lang]|].
  - rewrite translate_guards in Hrun by auto.
    discriminate.
  - exists content, (c :: lang). auto.
  - rewrite translate_guards in Hrun by auto.
    discriminate.
Qed.


End RetryMore.

Section SmallWorldsFailure.

#[local] Existing Instance plain_os.


End SmallWorldsFailure.


(** X13: for any input path, the 21 output paths of a batch are pairwise
    different and none of them is the input path: no language overwrites
    the output of another or the input. *)
Theorem batch_output_paths_distinct (file_path : str) :
  NoDup (map (expected_output_path file_path) all_langs)
  /\ ~ In file_path (map (expected_output_path file_path) all_langs).
Proof.
  pose proof all_langs_plain as Hplain. rewrite Forall_forall in Hplain.
  split.
  - apply NoDup_map_on; [|exact all_langs_NoDup].
    intros x y Hx Hy. destruct (Hplain x Hx), (Hplain y Hy).
    now apply expected_output_path_inj.
  - intros Hin. apply in_map_iff in Hin. destruct Hin as (lang & Heq & Hlang).
    destruct (Hplain lang Hlang) as [Hne Hsep].
    apply (expected_output_path_differs file_path lang); [|exact Heq].
    apply output_name_component;
      [apply Path_well_formed | assumption | assumption].
Qed.

(** ** More on the single-language pipeline and the batch *)

Section PipelineMore.

Context {RS : Type} {os : OS} (remote : RS -> request -> outcome * RS).

Implicit Types (w : world RS) (chunk target_lang srt_path : str).


Lemma driver_result_text (text : str) :
  text <> [] ->
  driver_result (Returns (text_response text)) = Ok (clean_content text).
Proof.
  intros H. cbn. apply truthy_nonempty in H.
  unfold interpret_response. cbn. now rewrite H.
Qed.

Section ReliableService.

(** A service that answers every request, in every state, with a non-empty
    text that depends on the request only. *)
Variable reply : request -> str.
Hypothesis reliable :
  forall s req,
    reply req <> []
    /\ exists s', remote s req = (Returns (text_response (reply req)), s').

Lemma translate_loop_reliable target_lang n chunks :
  forall i translated_chunks w,
  exists w' evs,
    translate_loop remote target_lang n i chunks translated_chunks w
    = (Ok (translated_chunks
           ++ map (fun c => clean_content (reply (chunk_request c target_lang)))
                chunks), w')
    /\ fs w' = fs w
    /\ trace w' = trace w ++ evs
    /\ calls evs = map (fun c => chunk_request c target_lang) chunks
    /\ writes evs = []
    /\ opened evs = [].
Proof.
  induction chunks as [|chunk rest IH]; intros i translated_chunks w.
  - exists w, []. cbn. now rewrite !app_nil_r.
  - cbn [translate_loop]. unfold bind at 1.
    pose proof (translate_one_run remote target_lang n i chunk translated_chunks w)
      as Hone.
    cbv zeta in Hone.
    destruct (reliable (service w) (chunk_request chunk target_lang))
      as (Hne & s' & Hcall).
    rewrite Hcall in Hone. cbv beta iota in Hone.
    rewrite (driver_result_text _ Hne) in Hone. rewrite Hone.
    match goal with
    | |- context [translate_loop _ _ _ _ _ ?acc ?w1] =>
        destruct (IH (S i) acc w1)
          as (w' & evs & Hrun & Hfs & Htr & Hc & Hw & Ho)
    end.
    rewrite Hrun. eexists. eexists. split.
    + cbn [map]. rewrite <- app_assoc. reflexivity.
    + rewrite Hfs, Htr. cbn [fs trace]. rewrite <- app_assoc.
      split; [reflexivity|]. split; [reflexivity|].
      unfold calls, writes, opened in *. rewrite !flat_map_app, Hc, Hw, Ho.
      repeat split; reflexivity.
Qed.



End ReliableService.

(** The batch over a list that splits at a failing language. *)
Lemma for_each_stops file_path (pre : list str) :
  forall (lang : str) (post : list str) w w1 e w2,
    sequential_runs remote file_path pre w w1 ->
    translate remote file_path (Some lang)
      (log (EPrint (MsgTranslatingTo lang)) w1) = (Err e, w2) ->
    for_each (pre ++ lang :: post)
      (fun lang =>
         bind (print (MsgTranslatingTo lang))
           (fun _ => bind (translate remote file_path (Some lang))
                       (fun _ => ret tt))) w
    = (Err e, w2)
    /\ exists evs,
         trace w2 = trace w ++ evs
         /\ announced evs = pre ++ [lang]
         /\ map fst (writes evs) = map (expected_output_path file_path) pre
         /\ (opened evs = map (expected_output_path file_path) pre
             \/ opened evs = map (expected_output_path file_path) (pre ++ [lang])).
Proof.
  induction pre as [|first pre IH]; intros lang post w w1 e w2 Hpre Hfail.
  - inversion Hpre; subst. cbn [app for_each map]. unfold bind at 1.
    unfold bind at 1, print. unfold bind at 1. rewrite Hfail.
    split; [reflexivity|].
    destruct (translate_effects remote file_path (Some lang)
                (log (EPrint (MsgTranslatingTo lang)) w1))
      as (evs & Htr & Ha & Hres).
    rewrite Hfail in Htr, Hres. cbn [fst snd] in Htr, Hres.
    destruct Hres as [Hw Hcase].
    exists (EPrint (MsgTranslatingTo lang) :: evs).
    rewrite Htr. cbn [log trace]. rewrite <- app_assoc.
    split; [reflexivity|].
    change (EPrint (MsgTranslatingTo lang) :: evs)
      with ([EPrint (MsgTranslatingTo lang)] ++ evs).
    rewrite announced_app, writes_app, opened_app, Ha, Hw.
    split; [reflexivity|]. split; [reflexivity|]. cbn [opened flat_map app].
    destruct Hcase as [[Ho _] | (lang' & remains & [= <-] & Ho & _)];
      rewrite Ho; auto.
  - inversion Hpre as [|? ? ? wa ? out Hone Hrest]; subst.
    cbn [app for_each]. unfold bind at 1.
    unfold bind at 1, print. unfold bind at 1. rewrite Hone. unfold ret at 1.
    destruct (IH lang post wa w1 e w2 Hrest Hfail)
      as (Hrun & evs2 & Htr2 & Ha2 & Hw2 & Ho2).
    split; [exact Hrun|].
    destruct (translate_effects remote file_path (Some first)
                (log (EPrint (MsgTranslatingTo first)) w))
      as (evs1 & Htr1 & Ha1 & Hres1).
    rewrite Hone in Htr1, Hres1. cbn [fst snd] in Htr1, Hres1.
    destruct Hres1 as (lang' & text & [= <-] & -> & Hw1 & Ho1 & _).
    exists (EPrint (MsgTranslatingTo first) :: evs1 ++ evs2).
    rewrite Htr2, Htr1. cbn [log trace]. rewrite <- !app_assoc.
    split; [reflexivity|].
    change (EPrint (MsgTranslatingTo first) :: evs1 ++ evs2)
      with ([EPrint (MsgTranslatingTo first)] ++ evs1 ++ evs2).
    rewrite !announced_app, !writes_app, !opened_app, Ha1, Ha2, Hw1, Ho1.
    rewrite !map_app, Hw2.
    split; [reflexivity|]. split; [reflexivity|].
    cbn [opened flat_map app map].
    destruct Ho2 as [-> | ->]; [left | right]; reflexivity.
Qed.


(** X16: on a path that does not exist, [translate_batch] announces the
    first language, raises [FileNotFoundError] and does nothing else. *)
Theorem translate_batch_missing_file file_path w :
  fs w file_path = None ->
  translate_batch remote file_path w
  = (Err (FileNotFoundError file_path),
     log (EPrint (MsgTranslatingTo (lit "en"))) w).
Proof.
  intros Hfile. unfold translate_batch.
  change all_langs with (lit "en" :: tl all_langs).
  cbn [for_each]. unfold bind at 1. unfold bind at 1, print. unfold bind at 1.
  rewrite translate_guards by (now left).
  cbn [log fs]. now rewrite Hfile.
Qed.


End PipelineMore.

(** ** More runs on small worlds *)

Section MoreSmallWorlds.

#[local] Existing Instance plain_os.


Lemma canned_remote_reliable (text : str) :
  text <> [] ->
  forall (s : unit) (req : request),
    (fun _ : request => text) req <> []
    /\ exists s', canned_remote text s req
                  = (Returns (text_response ((fun _ : request => text) req)), s').
Proof. intros H s req. split; [exact H | now exists s]. Qed.




Lemma translate_batch_missing_file_witness :
  translate_batch echo_remote (lit "missing.srt") (start (fun _ => None) tt)
  = (Err (FileNotFoundError (lit "missing.srt")),
     log (EPrint (MsgTranslatingTo (lit "en"))) (start (fun _ => None) tt)).
Proof.
  apply (translate_batch_missing_file echo_remote (lit "missing.srt")
           (start (fun _ => None) tt)).
  reflexivity.
Defined.


End MoreSmallWorlds.
